(** * ConnectPool.cpp: a bounded pool of reusable connections

    Shallow embedding of [ConnectionPool] (src/ConnectPool.cpp) and proofs
    about its bookkeeping.  Two views of the same code are given:

    - the member functions as atomic transitions of the pool (the mutex
      [mt_] makes [GetConnection] and [FreeConnection] mutually exclusive),
      driven by sequences of calls;
    - the statements of the member functions one by one, interleaved by a
      scheduler, with the mutex and the condition variable explicit. *)

From Stdlib Require Import ZArith Lia Bool Ascii String.
From stdpp Require Import base tactics option list.

Local Open Scope Z_scope.

(** ** Machine integers *)

(** [size_t] is the 64-bit unsigned type; arithmetic on it wraps. *)
Definition SIZE_WIDTH : Z := 64.
Definition SIZE_MODULUS : Z := 2 ^ SIZE_WIDTH.
Definition SIZE_MAX : Z := SIZE_MODULUS - 1.
Definition INT_MIN : Z := - 2 ^ 31.
Definition INT_MAX : Z := 2 ^ 31 - 1.

(** Conversion of an integer value to [size_t], and the result of any
    [size_t] operation. *)
Definition to_size_t (z : Z) : Z := z mod SIZE_MODULUS.

Definition is_size_t (z : Z) : Prop := 0 <= z < SIZE_MODULUS.

(** ** Exceptions and results of calls *)

(** What [std::stoi] throws. *)
Inductive exception : Type :=
  | invalid_argument
  | out_of_range.

(** A call returns, lets an exception escape to its caller, or stays
    suspended inside [cv_.wait]. *)
Inductive outcome (A : Type) : Type :=
  | Returned (a : A)
  | Thrown (e : exception)
  | Blocked.
Arguments Returned {A} a.
Arguments Thrown {A} e.
Arguments Blocked {A}.

(** ** std::stoi *)

Definition isspace (c : ascii) : bool :=
  let n := nat_of_ascii c in
  (n =? 32)%nat || ((9 <=? n)%nat && (n <=? 13)%nat).

Definition digit_value (c : ascii) : option Z :=
  let n := nat_of_ascii c in
  if ((48 <=? n)%nat && (n <=? 57)%nat)%bool then Some (Z.of_nat n - 48) else None.

Fixpoint skip_spaces (s : string) : string :=
  match s with
  | String c rest => if isspace c then skip_spaces rest else s
  | EmptyString => s
  end.

(** The longest prefix of decimal digits, accumulated from [acc]. *)
Fixpoint read_digits (s : string) (acc : Z) : Z :=
  match s with
  | String c rest =>
      match digit_value c with
      | Some d => read_digits rest (10 * acc + d)
      | None => acc
      end
  | EmptyString => acc
  end.

Definition starts_with_digit (s : string) : bool :=
  match s with
  | String c _ => match digit_value c with Some _ => true | None => false end
  | EmptyString => false
  end.

(** [std::stoi(str)] in base 10: leading white space, an optional sign,
    then digits; trailing characters are ignored.  No digit at all is
    [std::invalid_argument], a value that does not fit [int] is
    [std::out_of_range]. *)
Definition stoi (str : string) : exception + Z :=
  let s := skip_spaces str in
  let '(negative, body) :=
    match s with
    | String "-"%char rest => (true, rest)
    | String "+"%char rest => (false, rest)
    | _ => (false, s)
    end in
  if starts_with_digit body then
    let magnitude := read_digits body 0 in
    let value := if negative then - magnitude else magnitude in
    if (INT_MIN <=? value) && (value <=? INT_MAX) then inr value
    else inl out_of_range
  else inl invalid_argument.

(** ** Connections and handles *)

Record FakeConnection : Type := { id : Z }.

(** The objects allocated by [std::make_shared]; an object's address is its
    position, and addresses are never reused while the pool lives. *)
Definition Heap : Type := list FakeConnection.

(** [std::shared_ptr<FakeConnection>]: null, or the address of an object. *)
Definition ConnectionPtr : Type := option nat.
Definition nullptr : ConnectionPtr := None.

(** [std::make_shared<FakeConnection>(id)]. *)
Definition make_shared (h : Heap) (i : Z) : ConnectionPtr * Heap :=
  (Some (length h), h ++ [{| id := i |}]).

(** [std::move] out of a [shared_ptr]: the value moved, and the empty
    pointer left behind in the source variable. *)
Definition move_from (src : ConnectionPtr) : ConnectionPtr * ConnectionPtr :=
  (src, nullptr).

(** ** The pool *)

Record ConnectionPool : Type := MkPool {
  connections_ : list ConnectionPtr;
  connectionsAlive_ : Z;
  free_ : Z;
  poolSize_ : Z
}.

Definition set_free (p : ConnectionPool) (v : Z) : ConnectionPool :=
  MkPool (connections_ p) (connectionsAlive_ p) v (poolSize_ p).
Definition set_alive (p : ConnectionPool) (v : Z) : ConnectionPool :=
  MkPool (connections_ p) v (free_ p) (poolSize_ p).
Definition set_connections (p : ConnectionPool) (l : list ConnectionPtr) : ConnectionPool :=
  MkPool l (connectionsAlive_ p) (free_ p) (poolSize_ p).

(** [ConnectionPool(size_t poolSize)]. The argument is converted to
    [size_t] at the call; the body has no check and cannot fail. *)
Definition ConnectionPool_ctor (poolSize : Z) : outcome ConnectionPool :=
  let n := to_size_t poolSize in
  Returned {| connections_ := []; connectionsAlive_ := 0; free_ := n; poolSize_ := n |}.

Definition PoolSize (p : ConnectionPool) : Z := poolSize_ p.
Definition ConnectionsAlive (p : ConnectionPool) : Z := connectionsAlive_ p.
Definition ConnectionsInUse (p : ConnectionPool) : Z := to_size_t (poolSize_ p - free_ p).

(** [connections_.size()], [back()], [pop_back()], [push_back()]. *)
Definition vec_size (l : list ConnectionPtr) : Z := Z.of_nat (length l).
Definition vec_back (l : list ConnectionPtr) : ConnectionPtr := List.last l nullptr.
Definition vec_pop_back (l : list ConnectionPtr) : list ConnectionPtr := List.removelast l.
Definition vec_push_back (l : list ConnectionPtr) (c : ConnectionPtr) : list ConnectionPtr := l ++ [c].

(** [GetConnection(threadId)] as one transition taken with [mt_] held.
    While [free_ > 0] is false the caller stays in [cv_.wait] and the pool
    is untouched. *)
Definition GetConnection (p : ConnectionPool) (h : Heap) (threadId : string)
  : outcome ConnectionPtr * ConnectionPool * Heap :=
  if 0 <? free_ p then
    let p1 := set_free p (to_size_t (free_ p - 1)) in
    if vec_size (connections_ p1) =? 0 then
      match stoi threadId with
      | inl e => (Thrown e, p1, h)
      | inr i =>
          let '(NewPtr, h') := make_shared h i in
          let p2 := set_alive p1 (to_size_t (connectionsAlive_ p1 + 1)) in
          (Returned NewPtr, p2, h')
      end
    else
      let FreePtr := vec_back (connections_ p1) in
      let p2 := set_connections p1 (vec_pop_back (connections_ p1)) in
      (Returned FreePtr, p2, h)
  else (Blocked, p, h).

(** [FreeConnection(connection)]: the pool after the call and the caller's
    variable after the call. *)
Definition FreeConnection (p : ConnectionPool) (connection : ConnectionPtr)
  : outcome unit * ConnectionPool * ConnectionPtr :=
  let '(moved, connection') := move_from connection in
  let p1 := set_connections p (vec_push_back (connections_ p) moved) in
  let p2 := set_free p1 (to_size_t (free_ p1 + 1)) in
  (Returned tt, p2, connection').


(** ** One round of ThreadFunc

    One iteration of the loop of [ThreadFunc] (l.128-143), as far as the
    pool is concerned: the sleep and [WriteSomething] do not touch it. *)

Inductive round : Type :=
  | RoundDone (p : ConnectionPool) (h : Heap)
  | AssertFailed (line : Z)
  | Uncaught (e : exception)
  | Waiting.

Definition ThreadFunc_round (p : ConnectionPool) (h : Heap) (threadId : string) : round :=
  match GetConnection p h threadId with
  | (Returned connection, p1, h1) =>
      match connection with
      | None => AssertFailed 135                      (* assert(connection) *)
      | Some _ =>
          let '(_, p2, connection') := FreeConnection p1 connection in
          match connection' with
          | None => RoundDone p2 h1
          | Some _ => AssertFailed 142                (* assert(!connection) *)
          end
      end
  | (Thrown e, _, _) => Uncaught e
  | (Blocked, _, _) => Waiting
  end.

(** ** Sequences of calls

    The pool together with the connection objects and with the handles
    its callers currently hold in their variables. *)

Record World : Type := MkWorld {
  pool : ConnectionPool;
  heap : Heap;
  held : list (nat * ConnectionPtr)
}.

Inductive call : Type :=
  | CallGetConnection (caller : nat) (threadId : string)
  | CallFreeConnection (caller : nat) (connection : ConnectionPtr)
  | CallPoolSize
  | CallConnectionsAlive
  | CallConnectionsInUse.

(** A caller that passes one of its handles to [FreeConnection] no longer
    holds it afterwards: the variable has been moved from. *)
Fixpoint let_go {A : Type} `{EqDecision A} (x : A) (l : list A) : list A :=
  match l with
  | [] => []
  | y :: rest => if decide (x = y) then rest else y :: let_go x rest
  end.

Definition exec (c : call) (w : World) : World :=
  match c with
  | CallGetConnection who threadId =>
      let '(r, p', h') := GetConnection (pool w) (heap w) threadId in
      match r with
      | Returned ptr => MkWorld p' h' ((who, ptr) :: held w)
      | Thrown _ | Blocked => MkWorld p' h' (held w)
      end
  | CallFreeConnection who connection =>
      let '(_, p', _) := FreeConnection (pool w) connection in
      MkWorld p' (heap w) (let_go (who, connection) (held w))
  | CallPoolSize | CallConnectionsAlive | CallConnectionsInUse => w
  end.

Definition run (cs : list call) (w : World) : World := foldl (fun w c => exec c w) w cs.

(** Correct usage: [FreeConnection] is only passed a handle that the
    caller obtained from [GetConnection] and has not released yet. *)
Definition permitted (c : call) (w : World) : bool :=
  match c with
  | CallFreeConnection who connection => bool_decide ((who, connection) ∈ held w)
  | _ => true
  end.

Fixpoint well_used (cs : list call) (w : World) : bool :=
  match cs with
  | [] => true
  | c :: rest => permitted c w && well_used rest (exec c w)
  end.

(** No call of the sequence fails to create its connection. *)
Definition creation_succeeds (c : call) : bool :=
  match c with
  | CallGetConnection _ threadId => match stoi threadId with inr _ => true | inl _ => false end
  | _ => true
  end.

(** The world right after [ConnectionPool pool(poolSize)]. *)
Definition boot (poolSize : Z) : World :=
  match ConnectionPool_ctor poolSize with
  | Returned p => MkWorld p [] []
  | Thrown _ | Blocked => MkWorld (MkPool [] 0 0 0) [] []
  end.

(** ** Invariants of sequences of calls *)

(** The counters stay in [size_t], [connectionsAlive_] stays under the
    capacity, and the free slots never outnumber the room left to create
    plus the idle connections. *)
Record bounded (p : ConnectionPool) : Prop := {
  bounded_poolSize : is_size_t (poolSize_ p);
  bounded_free : is_size_t (free_ p);
  bounded_alive : 0 <= connectionsAlive_ p <= poolSize_ p;
  bounded_slack : free_ p + connectionsAlive_ p <= poolSize_ p + vec_size (connections_ p)
}.

(** Everything that references a connection at a point where no call is
    in progress: the idle cache, then the callers' variables. *)
Definition owners (w : World) : list ConnectionPtr :=
  connections_ (pool w) ++ (held w).*2.

(** The created connections, each listed once. *)
Definition created (h : Heap) : list ConnectionPtr := Some <$> seq 0 (length h).

Definition owned_once (w : World) : Prop := owners w ≡ₚ created (heap w).

(** [connectionsAlive_] counts the objects made, and the slots that are
    neither free nor behind a held handle are lost. *)
Record accounted (w : World) : Prop := {
  accounted_created : connectionsAlive_ (pool w) = Z.of_nat (length (heap w));
  accounted_slots : free_ (pool w) + Z.of_nat (length (held w)) <= poolSize_ (pool w)
}.

(** With no failed creation the slots add up exactly. *)
Definition exact_slots (w : World) : Prop :=
  free_ (pool w) + Z.of_nat (length (held w)) = poolSize_ (pool w).

(** ** The member functions statement by statement

    Threads run the statements of [GetConnection] and [FreeConnection] one
    at a time, in any order the scheduler picks.  The mutex [mt_] and the
    threads waiting on [cv_] are part of the state; the accessors take no
    lock and read the members as they are. *)

(** Where a thread stands: the statement it executes next. *)
Inductive pc : Type :=
  | Idle                                   (* outside the pool *)
  | GetLock (threadId : string)            (* l.80 std::unique_lock lock(mt_) *)
  | GetWait (threadId : string)            (* l.81 cv_.wait: test free_ > 0 *)
  | GetAsleep (threadId : string)          (* l.81 inside wait, mt_ released *)
  | GetWoken (threadId : string)           (* l.81 inside wait, relock mt_ *)
  | GetDec (threadId : string)             (* l.82 --free_ *)
  | GetTest (threadId : string)            (* l.83 connections_.size() == 0 *)
  | GetNew (threadId : string)             (* l.84 make_shared(stoi(threadId)) *)
  | GetInc (NewPtr : ConnectionPtr)        (* l.85 ++connectionsAlive_ *)
  | GetBack                                (* l.88 FreePtr = connections_.back() *)
  | GetPop (FreePtr : ConnectionPtr)       (* l.89 connections_.pop_back() *)
  | GetReturn (result : ConnectionPtr)     (* l.86, l.90 return; ~unique_lock *)
  | FreeLock (connection : ConnectionPtr)  (* l.98 std::unique_lock lock(mt_) *)
  | FreePush (connection : ConnectionPtr)  (* l.99 push_back(std::move(connection)) *)
  | FreeInc                                (* l.100 ++free_ *)
  | FreeNotify                             (* l.101 cv_.notify_one() *)
  | FreeUnlock.                            (* l.102 ~unique_lock *)

(** The statements executed with [mt_] held. *)
Definition critical (c : pc) : bool :=
  match c with
  | Idle | GetLock _ | GetAsleep _ | GetWoken _ | FreeLock _ => false
  | _ => true
  end.

Inductive accessor : Type := ReadPoolSize | ReadConnectionsAlive | ReadConnectionsInUse.

Definition read (a : accessor) (p : ConnectionPool) : Z :=
  match a with
  | ReadPoolSize => PoolSize p
  | ReadConnectionsAlive => ConnectionsAlive p
  | ReadConnectionsInUse => ConnectionsInUse p
  end.

(** A thread: where it stands, the handles in its variables, what the
    accessors returned to it (latest first) and the exceptions that
    reached it. *)
Record thread : Type := MkThread {
  at_ : pc;
  handles : list ConnectionPtr;
  seen : list (accessor * Z);
  caught : list exception
}.

Definition goto (th : thread) (c : pc) : thread :=
  MkThread c (handles th) (seen th) (caught th).

Record Machine : Type := MkMachine {
  shared : ConnectionPool;
  objects : Heap;
  mt_ : option nat;
  threads : list thread
}.

(** What one statement does to the executing thread, the pool, the heap
    and the mutex, and whether it notifies [cv_]; [None] when the thread
    cannot proceed (it needs [mt_], sleeps, or is outside the pool). *)
Definition statement (t : nat) (th : thread) (p : ConnectionPool) (h : Heap) (mt : option nat)
  : option (thread * ConnectionPool * Heap * option nat * bool) :=
  match at_ th with
  | Idle => None
  | GetLock threadId =>
      match mt with
      | None => Some (goto th (GetWait threadId), p, h, Some t, false)
      | Some _ => None
      end
  | GetWait threadId =>
      if 0 <? free_ p then Some (goto th (GetDec threadId), p, h, mt, false)
      else Some (goto th (GetAsleep threadId), p, h, None, false)
  | GetAsleep _ => None
  | GetWoken threadId =>
      match mt with
      | None => Some (goto th (GetWait threadId), p, h, Some t, false)
      | Some _ => None
      end
  | GetDec threadId =>
      Some (goto th (GetTest threadId), set_free p (to_size_t (free_ p - 1)), h, mt, false)
  | GetTest threadId =>
      if vec_size (connections_ p) =? 0 then Some (goto th (GetNew threadId), p, h, mt, false)
      else Some (goto th GetBack, p, h, mt, false)
  | GetNew threadId =>
      match stoi threadId with
      | inl e => Some (MkThread Idle (handles th) (seen th) (e :: caught th), p, h, None, false)
      | inr i => let '(NewPtr, h') := make_shared h i in
                 Some (goto th (GetInc NewPtr), p, h', mt, false)
      end
  | GetInc NewPtr =>
      Some (goto th (GetReturn NewPtr),
            set_alive p (to_size_t (connectionsAlive_ p + 1)), h, mt, false)
  | GetBack =>
      Some (goto th (GetPop (vec_back (connections_ p))), p, h, mt, false)
  | GetPop FreePtr =>
      Some (goto th (GetReturn FreePtr),
            set_connections p (vec_pop_back (connections_ p)), h, mt, false)
  | GetReturn result =>
      Some (MkThread Idle (result :: handles th) (seen th) (caught th), p, h, None, false)
  | FreeLock connection =>
      match mt with
      | None => Some (goto th (FreePush connection), p, h, Some t, false)
      | Some _ => None
      end
  | FreePush connection =>
      let '(moved, _) := move_from connection in
      Some (MkThread FreeInc (let_go connection (handles th)) (seen th) (caught th),
            set_connections p (vec_push_back (connections_ p) moved), h, mt, false)
  | FreeInc =>
      Some (goto th FreeNotify, set_free p (to_size_t (free_ p + 1)), h, mt, false)
  | FreeNotify =>
      Some (goto th FreeUnlock, p, h, mt, true)
  | FreeUnlock =>
      Some (goto th Idle, p, h, None, false)
  end.

Definition asleep (th : thread) : bool :=
  match at_ th with GetAsleep _ => true | _ => false end.

(** A sleeping thread leaves its sleep and has to take [mt_] again. *)
Definition wake (th : thread) : thread :=
  match at_ th with
  | GetAsleep threadId => goto th (GetWoken threadId)
  | _ => th
  end.

(** [cv_.notify_one()]: with no thread asleep nothing happens; otherwise
    one sleeping thread, the one the scheduler designates, is woken. *)
Definition notify_one (w : nat) (ths : list thread) : option (list thread) :=
  if existsb asleep ths then
    match ths !! w with
    | Some th => if asleep th then Some (<[w := wake th]> ths) else None
    | None => None
    end
  else Some ths.

(** What the scheduler can make happen next. *)
Inductive event : Type :=
  | BeginGet (t : nat) (threadId : string)          (* t calls GetConnection *)
  | BeginFree (t : nat) (connection : ConnectionPtr)  (* t calls FreeConnection *)
  | Observe (t : nat) (a : accessor)                (* t calls an accessor *)
  | Statement (t : nat) (w : nat)                   (* t executes one statement *)
  | Spurious (t : nat).                             (* t wakes up unnotified *)

Definition actor (e : event) : nat :=
  match e with
  | BeginGet t _ | BeginFree t _ | Observe t _ | Statement t _ | Spurious t => t
  end.

Definition designated (e : event) : nat :=
  match e with Statement _ w => w | _ => 0%nat end.

(** What an event does to the thread it concerns and to the shared state. *)
Definition action (e : event) (th : thread) (p : ConnectionPool) (h : Heap) (mt : option nat)
  : option (thread * ConnectionPool * Heap * option nat * bool) :=
  match e with
  | BeginGet _ threadId =>
      match at_ th with
      | Idle => Some (goto th (GetLock threadId), p, h, mt, false)
      | _ => None
      end
  | BeginFree _ connection =>
      match at_ th with
      | Idle => Some (goto th (FreeLock connection), p, h, mt, false)
      | _ => None
      end
  | Observe _ a =>
      match at_ th with
      | Idle => Some (MkThread Idle (handles th) ((a, read a p) :: seen th) (caught th),
                      p, h, mt, false)
      | _ => None
      end
  | Statement t _ => statement t th p h mt
  | Spurious _ => if asleep th then Some (wake th, p, h, mt, false) else None
  end.

Definition step (e : event) (m : Machine) : option Machine :=
  match threads m !! actor e with
  | Some th =>
      match action e th (shared m) (objects m) (mt_ m) with
      | Some (th', p', h', mt', notifies) =>
          let ths := <[actor e := th']> (threads m) in
          if notifies then
            match notify_one (designated e) ths with
            | Some ths' => Some (MkMachine p' h' mt' ths')
            | None => None
            end
          else Some (MkMachine p' h' mt' ths)
      | None => None
      end
  | None => None
  end.

(** A schedule is played event by event; it is refused as soon as an event
    cannot happen. *)
Fixpoint play (es : list event) (m : Machine) : option Machine :=
  match es with
  | [] => Some m
  | e :: rest => match step e m with Some m' => play rest m' | None => None end
  end.

(** Correct usage: a thread passes to [FreeConnection] a handle it holds. *)
Definition allowed (e : event) (m : Machine) : bool :=
  match e with
  | BeginFree t connection =>
      match threads m !! t with
      | Some th => bool_decide (connection ∈ handles th)
      | None => false
      end
  | _ => true
  end.

Fixpoint well_behaved (es : list event) (m : Machine) : bool :=
  match es with
  | [] => true
  | e :: rest =>
      allowed e m && match step e m with Some m' => well_behaved rest m' | None => false end
  end.

(** [ConnectionPool pool(poolSize)] and [n] threads that have not called
    anything yet. *)
Definition start (poolSize : Z) (n : nat) : Machine :=
  MkMachine (pool (boot poolSize)) [] None (replicate n (MkThread Idle [] [] [])).

(** The statement the holder of [mt_] executes next; [Idle] when the
    mutex is free. *)
Definition focus (m : Machine) : pc :=
  match mt_ m with
  | Some t => match threads m !! t with Some th => at_ th | None => Idle end
  | None => Idle
  end.

(** ** Invariants of the interleaved statements *)

(** Slots taken or connections pushed that the holder of [mt_] has not
    yet balanced in the other counters. *)
Definition pending (c : pc) : Z :=
  match c with
  | GetTest _ | GetNew _ | GetInc _ | GetBack | GetPop _ | FreeInc => 1
  | _ => 0
  end.

(** What the holder of [mt_] knows at each statement. *)
Definition known (c : pc) (p : ConnectionPool) : Prop :=
  match c with
  | GetDec _ => 0 < free_ p
  | GetNew _ | GetInc _ => connections_ p = []
  | GetBack => connections_ p <> []
  | GetPop FreePtr => connections_ p <> [] /\ vec_back (connections_ p) = FreePtr
  | _ => True
  end.

Record numeric (c : pc) (p : ConnectionPool) : Prop := {
  numeric_poolSize : is_size_t (poolSize_ p);
  numeric_free : is_size_t (free_ p);
  numeric_alive : 0 <= connectionsAlive_ p <= poolSize_ p;
  numeric_slack :
    free_ p + connectionsAlive_ p + pending c <= poolSize_ p + vec_size (connections_ p);
  numeric_known : known c p
}.

(** Only the holder of [mt_] is at a statement of a locked region. *)
Record exclusive (m : Machine) : Prop := {
  exclusive_holder : forall t th,
    threads m !! t = Some th -> critical (at_ th) = true -> mt_ m = Some t;
  exclusive_held : forall t,
    mt_ m = Some t -> exists th, threads m !! t = Some th /\ critical (at_ th) = true
}.

(** The handle a thread inside [GetConnection] has in a local variable
    and that is no longer, or not yet, anywhere else. *)
Definition in_transit (c : pc) : list ConnectionPtr :=
  match c with
  | GetInc ptr | GetReturn ptr => [ptr]
  | _ => []
  end.

Definition all_handles (ths : list thread) : list ConnectionPtr :=
  concat (handles <$> ths).

Definition placed (m : Machine) : list ConnectionPtr :=
  connections_ (shared m) ++ in_transit (focus m) ++ all_handles (threads m).

(** A thread on its way into [FreeConnection] still has the handle. *)
Definition releasing_own (th : thread) : Prop :=
  match at_ th with
  | FreeLock connection | FreePush connection => connection ∈ handles th
  | _ => True
  end.

(** How an event moves the thread in or out of the locked regions, and
    what happens to [mt_] then. *)
Definition lawful (t : nat) (th th' : thread) (mt mt' : option nat) : Prop :=
  match critical (at_ th), critical (at_ th') with
  | false, false => mt' = mt
  | false, true => mt = None /\ mt' = Some t
  | true, true => mt' = mt
  | true, false => mt' = None
  end.

(** The event is correct usage for the thread it concerns. *)
Definition allowed_for (e : event) (th : thread) : Prop :=
  match e with
  | BeginFree _ connection => connection ∈ handles th
  | _ => True
  end.

Record sane (m : Machine) : Prop := {
  sane_exclusive : exclusive m;
  sane_numeric : numeric (focus m) (shared m)
}.

Record owned (m : Machine) : Prop := {
  owned_placed : placed m ≡ₚ created (objects m);
  owned_releasing : Forall releasing_own (threads m)
}.

(** Two thread tables that differ by sleeping threads woken up. *)
Definition roused (ths ths' : list thread) : Prop :=
  Forall2 (fun a b => b = a \/ (asleep a = true /\ b = wake a)) ths ths'.

(** ** The whole of ThreadFunc, and failed creations counted *)

(** The messages a thread sends (l.120-126); the loop of [ThreadFunc]
    makes one round per message. *)
Definition messagesToSendThroughConnections : list string :=
  [ "First message from thread #"%string;
    "Second message from thread #"%string;
    "Third message from thread #"%string;
    "Fourth message from thread #"%string;
    "Fifth message from thread #"%string ].

(** The loop of l.128-143 over [messages]: it goes on while the rounds
    complete, and stops at an assertion that fails, at an exception, or
    in [cv_.wait]. *)
Fixpoint ThreadFunc_loop (messages : list string) (p : ConnectionPool) (h : Heap)
    (threadId : string) : round :=
  match messages with
  | [] => RoundDone p h
  | _ :: rest =>
      match ThreadFunc_round p h threadId with
      | RoundDone p' h' => ThreadFunc_loop rest p' h' threadId
      | stopped => stopped
      end
  end.

Definition ThreadFunc (p : ConnectionPool) (h : Heap) (threadId : string) : round :=
  ThreadFunc_loop messagesToSendThroughConnections p h threadId.

(** Whether the call lets an exception of the factory step escape. *)
Definition throws (c : call) (w : World) : bool :=
  match c with
  | CallGetConnection _ threadId =>
      match (GetConnection (pool w) (heap w) threadId).1.1 with
      | Thrown _ => true
      | _ => false
      end
  | _ => false
  end.

(** The number of calls of the sequence that throw. *)
Fixpoint failures (cs : list call) (w : World) : nat :=
  match cs with
  | [] => 0
  | c :: rest => ((if throws c w then 1 else 0) + failures rest (exec c w))%nat
  end.

(** ** Wake-ups under way *)

(** The thread has left its sleep and has not taken [mt_] again yet. *)
Definition woken (th : thread) : bool :=
  match at_ th with GetWoken _ => true | _ => false end.

(** The number of threads that satisfy [f]. *)
Fixpoint tally (f : thread -> bool) (ths : list thread) : Z :=
  match ths with
  | [] => 0
  | th :: rest => (if f th then 1 else 0) + tally f rest
  end.

(** What the holder of [mt_] still owes: a thread that has the mutex to
    test [free_ > 0] has not yet taken the slot it may take, and a thread
    past [++free_] has not yet notified. *)
Definition wake_owed (c : pc) : Z :=
  match c with
  | GetWait _ | GetDec _ | FreeNotify => 1
  | _ => 0
  end.

(** What the thread itself owes when it is the one inside a locked
    region. *)
Definition owed_here (th : thread) : Z :=
  if critical (at_ th) then wake_owed (at_ th) else 0.

(** Free slots are matched by wake-ups under way whenever a thread
    sleeps. *)
Definition wakes_matched (m : Machine) : Prop :=
  existsb asleep (threads m) = true ->
  free_ (shared m) <= tally woken (threads m) + wake_owed (focus m).

(** ** Objects made and not yet counted *)

(** Between [make_shared] (l.84) and [++connectionsAlive_] (l.85) one
    object exists that [connectionsAlive_] does not count yet. *)
Definition made_uncounted (c : pc) : Z :=
  match c with
  | GetInc _ => 1
  | _ => 0
  end.

Definition tallied (m : Machine) : Prop :=
  connectionsAlive_ (shared m) + made_uncounted (focus m) = Z.of_nat (length (objects m)).

(** ** main.cpp: the command line of the Shell

    The head of [Shell::ExecuteCommand] (l.41-65), which splits the line
    and finds the redirection before any command runs, and [Shell::echo]
    (l.149-155).  The commands that go to the file system are not
    modelled. *)

(** [while (iss >> arg) args.push_back(arg)] (l.41-46): the maximal runs
    of characters that are not white space; [word] is the run being read. *)
Fixpoint split_args (s : string) (word : string) : list string :=
  match s with
  | EmptyString =>
      match word with EmptyString => [] | _ => [word] end
  | String c rest =>
      if isspace c then
        match word with
        | EmptyString => split_args rest EmptyString
        | _ => word :: split_args rest EmptyString
        end
      else split_args rest (String.append word (String c EmptyString))
  end.

Definition is_redirect (a : string) : bool :=
  String.eqb a ">" || String.eqb a ">>".

(** What the loop of l.54-65 finds. *)
Inductive redirection : Type :=
  | NoRedirection
  | RedirectTo (i : nat) (file : string) (appending : bool)
  | NoTarget.                                      (* return 1, l.62 *)

(** The loop of l.54-65 from index [i] on, over the arguments not yet
    looked at. *)
Fixpoint find_redirection (rest : list string) (i : nat) : redirection :=
  match rest with
  | [] => NoRedirection
  | a :: later =>
      if is_redirect a then
        match later with
        | file :: _ => RedirectTo i file (String.eqb a ">>")
        | [] => NoTarget
        end
      else find_redirection later (S i)
  end.

(** The locals of [ExecuteCommand] when the dispatch on [cmd] starts. *)
Record command_line : Type := MkCommandLine {
  cmd : string;
  args : list string;
  output_file : string;
  append : bool
}.

(** [ExecuteCommand], l.41-65: the return code when it returns before
    running anything, or the locals. *)
Definition ExecuteCommand_head (command : string) : Z + command_line :=
  match split_args command EmptyString with
  | [] => inl 1                                     (* l.48 *)
  | (first :: _) as all =>
      match find_redirection all 0 with
      | NoRedirection => inr (MkCommandLine first all EmptyString false)
      | RedirectTo i file appending => inr (MkCommandLine first (take i all) file appending)
      | NoTarget => inl 1                           (* l.62 *)
      end
  end.

(** [Shell::echo]: the characters it sends to its stream, and its
    return code. *)
Definition echo (args : list string) : string * Z :=
  (fold_right (fun a text => String.append a (String " " text))
              (String "010" EmptyString) (drop 1 args),
   0).

(** No character of the string is white space. *)
Fixpoint no_space (s : string) : bool :=
  match s with
  | EmptyString => true
  | String c rest => negb (isspace c) && no_space rest
  end.

(** Every character of the string is white space. *)
Fixpoint blank (s : string) : bool :=
  match s with
  | EmptyString => true
  | String c rest => isspace c && blank rest
  end.

(** A string that [iss >> arg] can produce. *)
Definition is_word (s : string) : Prop := s <> EmptyString /\ no_space s = true.

(** ** How long the mutex is held *)

(** The statements the thread at [c] has still to execute, at most,
    before it gives [mt_] back: the longest way from [c] to the end of the
    locked region (through the creation of a connection in
    [GetConnection]); 0 outside the locked regions. *)
Definition remaining (c : pc) : nat :=
  match c with
  | Idle | GetLock _ | GetAsleep _ | GetWoken _ | FreeLock _ => 0
  | GetWait _ => 6
  | GetDec _ => 5
  | GetTest _ => 4
  | GetNew _ | GetBack => 3
  | GetInc _ | GetPop _ => 2
  | GetReturn _ => 1
  | FreePush _ => 4
  | FreeInc => 3
  | FreeNotify => 2
  | FreeUnlock => 1
  end.

(** The events of a schedule that concern thread [t]. *)
Fixpoint turns (t : nat) (es : list event) : nat :=
  match es with
  | [] => 0
  | e :: rest => (if Nat.eqb (actor e) t then 1 else 0) + turns t rest
  end.

(** ** Schedules used as examples *)

(** Two threads, capacity 1: thread 0 gets the connection, thread 1 asks
    and falls asleep, thread 0 releases and wakes thread 1, which is
    handed the same connection. *)
Definition handover : list event :=
  [BeginGet 0 "1"] ++ replicate 7 (Statement 0 0)
  ++ [BeginGet 1 "2"; Statement 1 0; Statement 1 0]
  ++ [BeginFree 0 (Some 0%nat)] ++ replicate 5 (Statement 0 1)
  ++ replicate 7 (Statement 1 0).

(** Capacity 1: thread 0 holds the only connection and thread 1 sleeps in
    [GetConnection]. *)
Definition one_waiting : Machine :=
  {| shared := {| connections_ := []; connectionsAlive_ := 1; free_ := 0; poolSize_ := 1 |};
     objects := [{| id := 1 |}];
     mt_ := None;
     threads := [ {| at_ := Idle; handles := [Some 0%nat]; seen := []; caught := [] |};
                  {| at_ := GetAsleep "2"; handles := []; seen := []; caught := [] |} ] |}.

(** Capacity 1, three threads: thread 0 holds the only connection and has
    just called [FreeConnection] on it, thread 1 sleeps in
    [GetConnection], thread 2 has not called anything. *)
Definition releasing : Machine :=
  {| shared := {| connections_ := []; connectionsAlive_ := 1; free_ := 0; poolSize_ := 1 |};
     objects := [{| id := 1 |}];
     mt_ := None;
     threads := [ {| at_ := FreeLock (Some 0%nat); handles := [Some 0%nat];
                     seen := []; caught := [] |};
                  {| at_ := GetAsleep "2"; handles := []; seen := []; caught := [] |};
                  {| at_ := Idle; handles := []; seen := []; caught := [] |} ] |}.

(** The schedule that leads to [releasing]. *)
Definition to_releasing : list event :=
  [BeginGet 0 "1"] ++ replicate 7 (Statement 0 0)
  ++ [BeginGet 1 "2"; Statement 1 0; Statement 1 0; BeginFree 0 (Some 0%nat)].

(** The pool of [releasing] once thread 0 has released its connection. *)
Definition one_idle : ConnectionPool :=
  {| connections_ := [Some 0%nat]; connectionsAlive_ := 1; free_ := 1; poolSize_ := 1 |}.

(** Thread 2 after it has read [ConnectionsInUse] and called
    [GetConnection] while thread 0 was releasing. *)
Definition onlooker : thread :=
  {| at_ := GetLock "3"; handles := []; seen := [(ReadConnectionsInUse, 1)]; caught := [] |}.

(** Capacity 5, two threads: thread 0 has just taken [mt_] in
    [GetConnection]. *)
Definition just_locked : Machine :=
  {| shared := {| connections_ := []; connectionsAlive_ := 0; free_ := 5; poolSize_ := 5 |};
     objects := [];
     mt_ := Some 0%nat;
     threads := [ {| at_ := GetWait "1"; handles := []; seen := []; caught := [] |};
                  {| at_ := Idle; handles := []; seen := []; caught := [] |} ] |}.

(** * Proofs *)

(** ** Arithmetic of [size_t] *)

Lemma to_size_t_range z : is_size_t (to_size_t z).
Proof. unfold is_size_t, to_size_t. apply Z.mod_pos_bound. reflexivity. Qed.

Lemma to_size_t_small z : is_size_t z -> to_size_t z = z.
Proof. unfold is_size_t, to_size_t. intros H. apply Z.mod_small, H. Qed.

Lemma to_size_t_le z : 0 <= z -> to_size_t z <= z.
Proof. unfold to_size_t. intros H. apply Z.mod_le; [exact H | reflexivity]. Qed.

Lemma to_size_t_pred z : is_size_t z -> 0 < z -> to_size_t (z - 1) = z - 1.
Proof. intros [H0 H1] H. apply to_size_t_small. unfold is_size_t. lia. Qed.

Lemma to_size_t_succ z : is_size_t z -> z < SIZE_MAX -> to_size_t (z + 1) = z + 1.
Proof. intros [H0 H1] H. apply to_size_t_small. unfold is_size_t, SIZE_MAX in *. lia. Qed.

(** ** The vector used as a stack *)

Lemma vec_size_nil_iff l : vec_size l = 0 <-> l = [].
Proof.
  unfold vec_size. destruct l as [|c l]; simpl; split; intros H; try done; lia.
Qed.

Lemma vec_back_push l c : vec_back (vec_push_back l c) = c.
Proof. unfold vec_back, vec_push_back. apply last_last. Qed.

Lemma vec_pop_push l c : vec_pop_back (vec_push_back l c) = l.
Proof. unfold vec_pop_back, vec_push_back. apply removelast_last. Qed.

Lemma vec_size_push l c : vec_size (vec_push_back l c) = vec_size l + 1.
Proof. unfold vec_size, vec_push_back. rewrite length_app. simpl. lia. Qed.

Lemma vec_nonempty_push l : l <> [] -> l = vec_push_back (vec_pop_back l) (vec_back l).
Proof. intros H. apply app_removelast_last, H. Qed.

Lemma vec_size_pop l : l <> [] -> vec_size (vec_pop_back l) = vec_size l - 1.
Proof.
  intros H. rewrite (vec_nonempty_push l H) at 2. rewrite vec_size_push. lia.
Qed.

(** ** The three ways through [GetConnection] *)

Lemma GetConnection_blocked p h threadId :
  free_ p <= 0 -> GetConnection p h threadId = (Blocked, p, h).
Proof.
  intros H. unfold GetConnection.
  destruct (0 <? free_ p) eqn:E; [apply Z.ltb_lt in E; lia | reflexivity].
Qed.

Lemma GetConnection_growth p h threadId :
  0 < free_ p -> connections_ p = [] ->
  GetConnection p h threadId =
    match stoi threadId with
    | inl e => (Thrown e, set_free p (to_size_t (free_ p - 1)), h)
    | inr i => (Returned (Some (length h)),
                MkPool [] (to_size_t (connectionsAlive_ p + 1))
                       (to_size_t (free_ p - 1)) (poolSize_ p),
                h ++ [{| id := i |}])
    end.
Proof.
  intros Hf Hc. unfold GetConnection.
  destruct (0 <? free_ p) eqn:E; [| apply Z.ltb_ge in E; lia].
  unfold set_alive, set_free, make_shared. simpl. rewrite !Hc. simpl.
  destruct (stoi threadId); reflexivity.
Qed.

Lemma GetConnection_reuse p h threadId :
  0 < free_ p -> connections_ p <> [] ->
  GetConnection p h threadId =
    (Returned (vec_back (connections_ p)),
     MkPool (vec_pop_back (connections_ p)) (connectionsAlive_ p)
            (to_size_t (free_ p - 1)) (poolSize_ p),
     h).
Proof.
  intros Hf Hc. unfold GetConnection.
  destruct (0 <? free_ p) eqn:E; [| apply Z.ltb_ge in E; lia].
  simpl. destruct (vec_size (connections_ p) =? 0) eqn:E0; [| reflexivity].
  apply Z.eqb_eq, vec_size_nil_iff in E0. contradiction.
Qed.

(** Case analysis on a call of [GetConnection], one case per path. *)
Ltac get_cases p h threadId :=
  let Hf := fresh "Hfree" in
  let Hc := fresh "Hcache" in
  let E := fresh "Eget" in
  destruct (Z_lt_le_dec 0 (free_ p)) as [Hf | Hf];
  [ destruct (decide (connections_ p = [])) as [Hc | Hc];
    [ pose proof (GetConnection_growth p h threadId Hf Hc) as E
    | pose proof (GetConnection_reuse p h threadId Hf Hc) as E ]
  | pose proof (GetConnection_blocked p h threadId Hf) as E ].

(** ** Bookkeeping that every sequence of calls preserves *)

Lemma bounded_new n :
  bounded {| connections_ := []; connectionsAlive_ := 0;
             free_ := to_size_t n; poolSize_ := to_size_t n |}.
Proof.
  pose proof (to_size_t_range n) as H.
  split; simpl; try exact H; unfold is_size_t, vec_size in *; simpl; lia.
Qed.

Lemma GetConnection_bounded p h threadId :
  bounded p -> bounded (GetConnection p h threadId).1.2.
Proof.
  intros [Hp Hf Ha Hs]. get_cases p h threadId; rewrite Eget.
  - (* growth *)
    apply vec_size_nil_iff in Hcache as Hz.
    pose proof (to_size_t_pred _ Hf Hfree) as Hd.
    assert (to_size_t (connectionsAlive_ p + 1) = connectionsAlive_ p + 1) as Hi.
    { apply to_size_t_small. unfold is_size_t in *. lia. }
    destruct (stoi threadId); simpl; split; simpl;
      rewrite ?Hd, ?Hi, ?Hcache; unfold is_size_t, vec_size in *; simpl; lia.
  - (* reuse *)
    pose proof (to_size_t_pred _ Hf Hfree) as Hd.
    pose proof (vec_size_pop _ Hcache) as Hpop.
    simpl; split; simpl; rewrite ?Hd, ?Hpop; unfold is_size_t in *; lia.
  - (* blocked *)
    simpl. split; assumption.
Qed.

Lemma FreeConnection_bounded p connection :
  bounded p -> bounded (FreeConnection p connection).1.2.
Proof.
  intros [Hp Hf Ha Hs]. unfold FreeConnection, move_from. simpl.
  pose proof (to_size_t_range (free_ p + 1)) as Hr.
  pose proof (to_size_t_le (free_ p + 1)) as Hle.
  split; simpl; try assumption.
  rewrite vec_size_push. unfold is_size_t in *. lia.
Qed.

Lemma exec_bounded c w : bounded (pool w) -> bounded (pool (exec c w)).
Proof.
  intros H. destruct c as [who threadId | who connection | | |]; simpl; try exact H.
  - pose proof (GetConnection_bounded (pool w) (heap w) threadId H) as HG.
    destruct (GetConnection (pool w) (heap w) threadId) as [[r p'] h'].
    destruct r; exact HG.
  - exact (FreeConnection_bounded (pool w) connection H).
Qed.

Lemma run_app cs1 cs2 w : run (cs1 ++ cs2) w = run cs2 (run cs1 w).
Proof. unfold run. apply foldl_app. Qed.

Lemma run_cons c cs w : run (c :: cs) w = run cs (exec c w).
Proof. reflexivity. Qed.

Lemma run_bounded cs w : bounded (pool w) -> bounded (pool (run cs w)).
Proof.
  revert w. induction cs as [|c cs IH]; intros w H; [exact H |].
  simpl. apply IH, exec_bounded, H.
Qed.

Lemma boot_bounded poolSize : bounded (pool (boot poolSize)).
Proof. apply bounded_new. Qed.

(** [connectionsAlive_] and [poolSize_] along a call. *)
Lemma exec_alive_mono c w :
  bounded (pool w) ->
  connectionsAlive_ (pool w) <= connectionsAlive_ (pool (exec c w))
  /\ poolSize_ (pool (exec c w)) = poolSize_ (pool w).
Proof.
  intros [Hp Hf Ha Hs].
  destruct c as [who threadId | who connection | | |]; simpl; try (split; [lia | reflexivity]).
  get_cases (pool w) (heap w) threadId; rewrite Eget.
  - apply vec_size_nil_iff in Hcache as Hz.
    assert (to_size_t (connectionsAlive_ (pool w) + 1) = connectionsAlive_ (pool w) + 1) as Hi.
    { apply to_size_t_small. unfold is_size_t in *. lia. }
    destruct (stoi threadId); simpl; rewrite ?Hi; split; (lia || reflexivity).
  - simpl. split; [lia | reflexivity].
  - simpl. split; [lia | reflexivity].
Qed.

Lemma run_alive_mono cs w :
  bounded (pool w) ->
  connectionsAlive_ (pool w) <= connectionsAlive_ (pool (run cs w))
  /\ poolSize_ (pool (run cs w)) = poolSize_ (pool w).
Proof.
  revert w. induction cs as [|c cs IH]; intros w H; simpl; [split; [lia | reflexivity] |].
  destruct (exec_alive_mono c w H) as [H1 H2].
  destruct (IH (exec c w) (exec_bounded c w H)) as [H3 H4].
  split; [lia | congruence].
Qed.

(** ** Ownership under correct usage *)

Lemma created_snoc h c : created (h ++ [c]) = created h ++ [Some (length h)].
Proof.
  unfold created. rewrite length_app. simpl.
  rewrite Nat.add_1_r, seq_S, fmap_app. reflexivity.
Qed.

Lemma let_go_perm {A : Type} `{EqDecision A} (x : A) l : x ∈ l -> l ≡ₚ x :: let_go x l.
Proof.
  induction l as [|y l IH]; intros H; [by apply elem_of_nil in H |].
  simpl. destruct (decide (x = y)) as [-> | Hne]; [reflexivity |].
  apply elem_of_cons in H as [H | H]; [contradiction |].
  rewrite (IH H) at 1. apply Permutation_swap.
Qed.

Lemma let_go_length {A : Type} `{EqDecision A} (x : A) l :
  x ∈ l -> length l = S (length (let_go x l)).
Proof. intros H. rewrite (let_go_perm x l H) at 1. reflexivity. Qed.

Lemma exec_owned_once c w :
  permitted c w = true -> owned_once w -> owned_once (exec c w).
Proof.
  unfold owned_once, owners. intros Hperm Hown.
  destruct c as [who threadId | who connection | | |]; simpl; try exact Hown.
  - get_cases (pool w) (heap w) threadId; rewrite Eget.
    + destruct (stoi threadId) as [e | i]; simpl; [exact Hown |].
      rewrite Hcache in Hown. rewrite created_snoc, <- Hown. simpl.
      apply Permutation_cons_append.
    + simpl. rewrite <- Hown. rewrite (vec_nonempty_push _ Hcache) at 3.
      unfold vec_push_back. rewrite <- app_assoc. reflexivity.
    + simpl. exact Hown.
  - simpl in Hperm. apply bool_decide_eq_true in Hperm.
    rewrite <- Hown. unfold vec_push_back.
    rewrite (let_go_perm _ _ Hperm) at 2. rewrite fmap_cons. simpl.
    rewrite <- app_assoc. reflexivity.
Qed.

Lemma run_owned_once cs w :
  well_used cs w = true -> owned_once w -> owned_once (run cs w).
Proof.
  revert w. induction cs as [|c cs IH]; intros w Hu Hown; [exact Hown |].
  simpl in *. apply andb_true_iff in Hu as [Hp Hu].
  apply IH; [exact Hu | apply exec_owned_once; assumption].
Qed.

Lemma boot_owned_once poolSize : owned_once (boot poolSize).
Proof. unfold owned_once, owners, created. simpl. constructor. Qed.

Lemma created_NoDup h : NoDup (created h).
Proof.
  unfold created. apply NoDup_fmap_2; [intros x y Hxy; congruence | apply NoDup_seq].
Qed.

Lemma elem_of_created h c :
  c ∈ created h <-> exists a : nat, c = Some a /\ (a < length h)%nat.
Proof.
  unfold created. rewrite list_elem_of_fmap. split.
  - intros (a & -> & Ha). exists a. split; [reflexivity |].
    apply elem_of_seq in Ha. lia.
  - intros (a & -> & Ha). exists a. split; [reflexivity |].
    apply elem_of_seq. lia.
Qed.

(** ** Slots under correct usage *)

Lemma exec_accounted c w :
  permitted c w = true -> bounded (pool w) -> accounted w -> accounted (exec c w).
Proof.
  intros Hperm [Hp Hf Ha Hs] [Hc Hsl].
  destruct c as [who threadId | who connection | | |]; simpl; try (split; assumption).
  - get_cases (pool w) (heap w) threadId; rewrite Eget.
    + pose proof (to_size_t_pred _ Hf Hfree) as Hd.
      apply vec_size_nil_iff in Hcache as Hz.
      assert (to_size_t (connectionsAlive_ (pool w) + 1) = connectionsAlive_ (pool w) + 1) as Hi.
      { apply to_size_t_small. unfold is_size_t in *. lia. }
      destruct (stoi threadId); simpl; split; simpl;
        rewrite ?Hd, ?Hi, ?length_app; simpl; lia.
    + pose proof (to_size_t_pred _ Hf Hfree) as Hd.
      simpl; split; simpl; rewrite ?Hd; lia.
    + simpl. split; assumption.
  - simpl in Hperm. apply bool_decide_eq_true in Hperm.
    pose proof (let_go_length _ _ Hperm) as Hl.
    pose proof (to_size_t_le (free_ (pool w) + 1)) as Hle.
    unfold is_size_t in *. split; simpl; [assumption | lia].
Qed.

Lemma exec_exact_slots c w :
  permitted c w = true -> creation_succeeds c = true ->
  bounded (pool w) -> exact_slots w -> exact_slots (exec c w).
Proof.
  unfold exact_slots. intros Hperm Hok [Hp Hf Ha Hs] Hsl.
  destruct c as [who threadId | who connection | | |]; simpl; try assumption.
  - simpl in Hok. get_cases (pool w) (heap w) threadId; rewrite Eget.
    + pose proof (to_size_t_pred _ Hf Hfree) as Hd.
      destruct (stoi threadId); [discriminate |]. simpl. rewrite Hd. lia.
    + pose proof (to_size_t_pred _ Hf Hfree) as Hd. simpl. rewrite Hd. lia.
    + simpl. assumption.
  - simpl in Hperm. apply bool_decide_eq_true in Hperm.
    pose proof (let_go_length _ _ Hperm) as Hl.
    rewrite to_size_t_succ; [lia | assumption |].
    unfold is_size_t, SIZE_MAX in *. lia.
Qed.

Lemma run_accounted cs w :
  well_used cs w = true -> bounded (pool w) -> accounted w -> accounted (run cs w).
Proof.
  revert w. induction cs as [|c cs IH]; intros w Hu Hb Hacc; [exact Hacc |].
  simpl in *. apply andb_true_iff in Hu as [Hp Hu].
  apply IH; [exact Hu | apply exec_bounded, Hb | apply exec_accounted; assumption].
Qed.

Lemma run_exact_slots cs w :
  well_used cs w = true -> forallb creation_succeeds cs = true ->
  bounded (pool w) -> exact_slots w -> exact_slots (run cs w).
Proof.
  revert w. induction cs as [|c cs IH]; intros w Hu Hok Hb Hex; [exact Hex |].
  simpl in *. apply andb_true_iff in Hu as [Hp Hu]. apply andb_true_iff in Hok as [Hc Hok].
  apply IH; [exact Hu | exact Hok | apply exec_bounded, Hb | apply exec_exact_slots; assumption].
Qed.

Lemma boot_accounted poolSize : accounted (boot poolSize).
Proof.
  pose proof (to_size_t_range poolSize) as H.
  split; simpl; [reflexivity | unfold is_size_t in H; lia].
Qed.

Lemma boot_exact_slots poolSize : exact_slots (boot poolSize).
Proof. unfold exact_slots. simpl. lia. Qed.

(** When every creation succeeds, correct usage keeps the counters in
    order: the connections in use are the handles held, and they are at
    most the connections alive, which are at most the capacity. *)
Lemma in_use_alive_capacity_when_creation_succeeds poolSize cs :
  well_used cs (boot poolSize) = true ->
  forallb creation_succeeds cs = true ->
  let w := run cs (boot poolSize) in
  ConnectionsInUse (pool w) = Z.of_nat (length (held w))
  /\ ConnectionsInUse (pool w) <= ConnectionsAlive (pool w) <= PoolSize (pool w).
Proof.
  intros Hu Hok w.
  pose proof (run_bounded cs _ (boot_bounded poolSize)) as [Hp Hf Ha Hs].
  pose proof (run_exact_slots cs _ Hu Hok (boot_bounded poolSize) (boot_exact_slots poolSize)) as Hex.
  pose proof (run_accounted cs _ Hu (boot_bounded poolSize) (boot_accounted poolSize)) as [Hc Hsl].
  pose proof (run_owned_once cs _ Hu (boot_owned_once poolSize)) as Hown.
  fold w in Hp, Hf, Ha, Hs, Hex, Hc, Hsl, Hown.
  unfold exact_slots in Hex.
  apply Permutation_length in Hown.
  unfold owners, created in Hown. rewrite length_app, !length_fmap, length_seq in Hown.
  unfold ConnectionsInUse, ConnectionsAlive, PoolSize.
  assert (to_size_t (poolSize_ (pool w) - free_ (pool w)) = Z.of_nat (length (held w))) as Hin.
  { rewrite to_size_t_small; [lia |]. unfold is_size_t in *. lia. }
  rewrite Hin. split; [reflexivity | lia].
Qed.

(** ** Failed creation *)

(** When [stoi] throws on the growth path, the exception reaches the
    caller, and the pool it leaves behind differs from the pool before the
    call in [free_] alone, which is one lower. *)
Lemma failed_creation_propagates_and_keeps_slot p h threadId e :
  bounded p -> 0 < free_ p -> connections_ p = [] -> stoi threadId = inl e ->
  GetConnection p h threadId = (Thrown e, set_free p (free_ p - 1), h)
  /\ ConnectionsInUse (set_free p (free_ p - 1)) = ConnectionsInUse p + 1.
Proof.
  intros [Hp Hf Ha Hs] Hfree Hcache Hstoi.
  rewrite (GetConnection_growth p h threadId Hfree Hcache), Hstoi.
  rewrite (to_size_t_pred _ Hf Hfree). split; [reflexivity |].
  apply vec_size_nil_iff in Hcache as Hz.
  unfold ConnectionsInUse. simpl.
  rewrite !to_size_t_small; unfold is_size_t in *; lia.
Qed.

(** Under correct usage the free slots and the handles held never add up
    to more than before: a slot that is neither free nor behind a handle
    stays lost. *)
Lemma exec_slots_never_return c w :
  permitted c w = true -> bounded (pool w) ->
  free_ (pool (exec c w)) + Z.of_nat (length (held (exec c w)))
  <= free_ (pool w) + Z.of_nat (length (held w)).
Proof.
  intros Hperm [Hp Hf Ha Hs].
  destruct c as [who threadId | who connection | | |]; simpl; try lia.
  - get_cases (pool w) (heap w) threadId; rewrite Eget.
    + pose proof (to_size_t_pred _ Hf Hfree) as Hd.
      destruct (stoi threadId); simpl; rewrite Hd; lia.
    + pose proof (to_size_t_pred _ Hf Hfree) as Hd. simpl. rewrite Hd. lia.
    + simpl. lia.
  - simpl in Hperm. apply bool_decide_eq_true in Hperm.
    pose proof (let_go_length _ _ Hperm) as Hl.
    pose proof (to_size_t_le (free_ (pool w) + 1)) as Hle.
    unfold is_size_t in *. lia.
Qed.

Lemma run_slots_never_return cs w :
  well_used cs w = true -> bounded (pool w) ->
  free_ (pool (run cs w)) + Z.of_nat (length (held (run cs w)))
  <= free_ (pool w) + Z.of_nat (length (held w)).
Proof.
  revert w. induction cs as [|c cs IH]; intros w Hu Hb; simpl in *; [lia |].
  apply andb_true_iff in Hu as [Hp Hu].
  pose proof (exec_slots_never_return c w Hp Hb) as H1.
  pose proof (IH (exec c w) Hu (exec_bounded c w Hb)) as H2. lia.
Qed.

(** After a failed creation, however the pool is used correctly from
    then on, one slot of the capacity is missing for good. *)
Lemma lost_slot_never_returns poolSize cs1 who threadId e cs2 :
  well_used (cs1 ++ CallGetConnection who threadId :: cs2) (boot poolSize) = true ->
  (GetConnection (pool (run cs1 (boot poolSize))) (heap (run cs1 (boot poolSize))) threadId).1.1
    = Thrown e ->
  let w := run (cs1 ++ CallGetConnection who threadId :: cs2) (boot poolSize) in
  free_ (pool w) + Z.of_nat (length (held w)) <= poolSize_ (pool w) - 1.
Proof.
  intros Hu Hthrow w. subst w. rewrite run_app, run_cons.
  set (w1 := run cs1 (boot poolSize)) in *.
  assert (well_used cs1 (boot poolSize) = true
          /\ well_used (CallGetConnection who threadId :: cs2) w1 = true) as [Hu1 Hu2].
  { clear Hthrow. subst w1. revert Hu. generalize (boot poolSize).
    induction cs1 as [|c cs1 IH]; intros w0 Hu; simpl in *; [split; [reflexivity | exact Hu] |].
    apply andb_true_iff in Hu as [Hp Hu]. destruct (IH _ Hu) as [H1 H2].
    rewrite Hp, H1. split; [reflexivity | exact H2]. }
  pose proof (run_bounded cs1 _ (boot_bounded poolSize)) as Hb1. fold w1 in Hb1.
  pose proof (run_accounted cs1 _ Hu1 (boot_bounded poolSize) (boot_accounted poolSize))
    as [_ Hsl]. fold w1 in Hsl.
  change (permitted (CallGetConnection who threadId) w1
          && well_used cs2 (exec (CallGetConnection who threadId) w1) = true) in Hu2.
  apply andb_true_iff in Hu2 as [_ Hu2].
  pose proof (run_slots_never_return cs2 _ Hu2
                (exec_bounded (CallGetConnection who threadId) w1 Hb1)) as Hret.
  destruct (run_alive_mono cs2 _ (exec_bounded (CallGetConnection who threadId) w1 Hb1))
    as [_ Hps].
  rewrite Hps. clear Hps.
  assert (free_ (pool (exec (CallGetConnection who threadId) w1))
          + Z.of_nat (length (held (exec (CallGetConnection who threadId) w1)))
          <= poolSize_ (pool (exec (CallGetConnection who threadId) w1)) - 1) as Hlost.
  { destruct Hb1 as [Hp Hf Ha Hs]. simpl.
    get_cases (pool w1) (heap w1) threadId; rewrite Eget in *.
    - pose proof (to_size_t_pred _ Hf Hfree) as Hd.
      destruct (stoi threadId); simpl in *; [rewrite Hd; lia | discriminate].
    - discriminate.
    - discriminate. }
  lia.
Qed.

(** C1, on the code: [ConnectionPool pool(5); pool.GetConnection("abc")].
    The call throws [std::invalid_argument] to its caller, and the pool is
    left with [free_ = 4]: the slot taken by [--free_] is not given back,
    so the pool is not the one before the call and [ConnectionsInUse()] is
    1 although no connection exists. *)
Theorem GetConnection_failed_creation_loses_slot :
  let w := boot 5 in
  GetConnection (pool w) (heap w) "abc"
    = (Thrown invalid_argument,
       {| connections_ := []; connectionsAlive_ := 0; free_ := 4; poolSize_ := 5 |},
       [])
  /\ (GetConnection (pool w) (heap w) "abc").1.2 <> pool w
  /\ free_ (GetConnection (pool w) (heap w) "abc").1.2 = free_ (pool w) - 1
  /\ ConnectionsInUse (GetConnection (pool w) (heap w) "abc").1.2 = 1
  /\ ConnectionsAlive (GetConnection (pool w) (heap w) "abc").1.2 = 0.
Proof.
  vm_compute. repeat split; try reflexivity. intros H. discriminate H.
Qed.

(** ** Construction *)

(** C3, as stated, fails at capacity 0: the constructor returns a pool and
    reports nothing. *)
Lemma ConnectionPool_ctor_accepts_zero :
  0 <= 0
  /\ ConnectionPool_ctor 0
     = Returned {| connections_ := []; connectionsAlive_ := 0; free_ := 0; poolSize_ := 0 |}
  /\ ~ (forall poolSize, poolSize <= 0 -> exists e, ConnectionPool_ctor poolSize = Thrown e).
Proof.
  split; [lia |]. split; [reflexivity |].
  intros H. destruct (H 0 (Z.le_refl 0)) as [e He]. discriminate He.
Qed.

(** C3, amended: construction never fails.  For every argument, positive
    or not, the constructor returns a pool whose capacity and free slots
    are the argument converted to [size_t] (0 stays 0, a negative value
    wraps around), with no connection alive and an empty cache; on the
    pool of capacity 0 every [GetConnection] stays blocked. *)
Theorem ConnectionPool_ctor_total poolSize :
  ConnectionPool_ctor poolSize
    = Returned {| connections_ := []; connectionsAlive_ := 0;
                  free_ := to_size_t poolSize; poolSize_ := to_size_t poolSize |}
  /\ is_size_t (to_size_t poolSize)
  /\ to_size_t 0 = 0
  /\ to_size_t (-1) = SIZE_MAX
  /\ (forall h threadId,
        GetConnection (pool (boot 0)) h threadId = (Blocked, pool (boot 0), h)).
Proof.
  split; [reflexivity |]. split; [apply to_size_t_range |].
  split; [reflexivity |]. split; [reflexivity |].
  intros h threadId. reflexivity.
Qed.

(** ** The counters after a failed creation *)

(** C4, on the code: [ConnectionPool pool(5)] and one call
    [GetConnection("140737345746688")], whose [stoi] throws
    [std::out_of_range].  The sequence is correct usage (no handle was
    returned, none is released), and it reaches a state where
    [ConnectionsInUse()] is 1 and [ConnectionsAlive()] is 0. *)
Theorem in_use_exceeds_alive_after_failed_creation :
  let cs := [CallGetConnection 0 "140737345746688"] in
  let w := run cs (boot 5) in
  well_used cs (boot 5) = true
  /\ stoi "140737345746688" = inl out_of_range
  /\ ConnectionsInUse (pool w) = 1
  /\ ConnectionsAlive (pool w) = 0
  /\ PoolSize (pool w) = 5
  /\ ~ (ConnectionsInUse (pool w) <= ConnectionsAlive (pool w)).
Proof.
  vm_compute. repeat split; try reflexivity. intros H. apply H. reflexivity.
Qed.

(** ** Exclusive ownership *)

(** Under correct usage, after any sequence of calls by any callers,
    the idle cache followed by the callers' handles lists every created
    connection exactly once and nothing else.  So no connection is at the
    same time idle and checked out, no two checked-out handles (of one
    caller or of two) reference the same connection, and no handle handed
    out is null. *)
Lemma calls_exclusive_ownership poolSize cs :
  well_used cs (boot poolSize) = true ->
  let w := run cs (boot poolSize) in
  owners w ≡ₚ created (heap w)
  /\ NoDup (owners w)
  /\ (forall a : nat, (a < length (heap w))%nat ->
        Some a ∈ connections_ (pool w) \/ Some a ∈ (held w).*2)
  /\ (forall who c, (who, c) ∈ held w -> c ∉ connections_ (pool w))
  /\ (forall i j who1 who2 c,
        held w !! i = Some (who1, c) -> held w !! j = Some (who2, c) -> i = j)
  /\ (forall who c, (who, c) ∈ held w -> c <> nullptr).
Proof.
  intros Hu w.
  pose proof (run_owned_once cs _ Hu (boot_owned_once poolSize)) as Hown.
  fold w in Hown. unfold owned_once in Hown.
  assert (NoDup (owners w)) as Hnd.
  { rewrite Hown. apply created_NoDup. }
  split; [exact Hown |]. split; [exact Hnd |].
  unfold owners in *. apply NoDup_app in Hnd as (Hnd1 & Hdisj & Hnd2).
  split; [| split; [| split]].
  - intros a Ha. apply elem_of_app. rewrite Hown. apply elem_of_created. eauto.
  - intros who c Hin Hc. apply (Hdisj c Hc).
    apply list_elem_of_fmap. exists (who, c). split; [reflexivity | exact Hin].
  - intros i j who1 who2 c Hi Hj.
    apply (NoDup_lookup _ i j c Hnd2); rewrite list_lookup_fmap.
    + rewrite Hi. reflexivity.
    + rewrite Hj. reflexivity.
  - intros who c Hin ->.
    assert (nullptr ∈ created (heap w)) as Hbad.
    { rewrite <- Hown. apply elem_of_app. right.
      apply list_elem_of_fmap. exists (who, nullptr). split; [reflexivity | exact Hin]. }
    apply elem_of_created in Hbad as (a & Ha & _). discriminate Ha.
Qed.


(** ** The interleaved statements: shape of a step *)

(** Case analysis on an enabled event: one goal per event and statement. *)
Ltac action_cases H :=
  match type of H with
  | action ?e ?th _ _ _ = Some _ =>
      destruct e; simpl in H; unfold statement, asleep, wake, move_from, make_shared in H;
      destruct (at_ th) eqn:?; simpl in H;
      repeat match type of H with
             | context [match ?x with _ => _ end] => destruct x eqn:?
             end;
      simplify_eq; simpl in *
  end.

Lemma action_lawful e th p h mt th' p' h' mt' nfy :
  action e th p h mt = Some (th', p', h', mt', nfy) ->
  lawful (actor e) th th' mt mt'.
Proof.
  intros H. unfold lawful. action_cases H; auto.
Qed.

(** Outside the locked regions nothing shared changes, and a thread
    entering one has nothing pending. *)
Lemma action_outside e th p h mt th' p' h' mt' nfy :
  action e th p h mt = Some (th', p', h', mt', nfy) ->
  critical (at_ th) = false ->
  p' = p /\ h' = h /\ nfy = false
  /\ pending (at_ th') = 0 /\ known (at_ th') p /\ in_transit (at_ th') = []
  /\ handles th' = handles th.
Proof.
  intros H Hc. action_cases H; try discriminate; auto 10.
Qed.

Lemma focus_free m : mt_ m = None -> focus m = Idle.
Proof. unfold focus. intros ->. reflexivity. Qed.

Lemma focus_holder m t th :
  exclusive m -> threads m !! t = Some th -> critical (at_ th) = true -> focus m = at_ th.
Proof.
  intros [Hh _] Hl Hc. unfold focus. rewrite (Hh t th Hl Hc), Hl. reflexivity.
Qed.

Section Update.
Variables (m : Machine) (t : nat) (th th' : thread).
Variables (p' : ConnectionPool) (h' : Heap) (mt' : option nat).
Hypothesis Hexcl : exclusive m.
Hypothesis Hlook : threads m !! t = Some th.
Hypothesis Hlaw : lawful t th th' (mt_ m) mt'.

Let m1 : Machine := MkMachine p' h' mt' (<[t := th']> (threads m)).

Lemma update_lookup_same : threads m1 !! t = Some th'.
Proof. simpl. apply list_lookup_insert_eq. eapply lookup_lt_Some, Hlook. Qed.

Lemma update_lookup_other t' : t' <> t -> threads m1 !! t' = threads m !! t'.
Proof. intros Hne. simpl. apply list_lookup_insert_ne. congruence. Qed.

Lemma update_exclusive : exclusive m1.
Proof.
  destruct Hexcl as [Hh Hheld]. pose proof Hlaw as Law. unfold lawful in Law. split.
  - intros t' th1 Hl Hc. destruct (decide (t' = t)) as [-> | Hne].
    + rewrite update_lookup_same in Hl. simplify_eq. simpl.
      destruct (critical (at_ th)) eqn:Ec; rewrite Hc in Law.
      * rewrite Law. apply (Hh t th Hlook Ec).
      * apply Law.
    + rewrite (update_lookup_other t' Hne) in Hl. simpl.
      pose proof (Hh t' th1 Hl Hc) as Hm.
      destruct (critical (at_ th)) eqn:Ec.
      * pose proof (Hh t th Hlook Ec). congruence.
      * destruct (critical (at_ th')); [destruct Law; congruence | congruence].
  - intros t' Hm. simpl in Hm. destruct (decide (t' = t)) as [-> | Hne].
    + exists th'. split; [apply update_lookup_same |].
      destruct (critical (at_ th)) eqn:Ec, (critical (at_ th')) eqn:Ec'; try reflexivity.
      * congruence.
      * subst mt'. destruct (Hheld t Hm) as (th0 & Hl0 & Hc0). congruence.
    + rewrite (update_lookup_other t' Hne).
      apply Hheld.
      destruct (critical (at_ th)) eqn:Ec, (critical (at_ th')) eqn:Ec'.
      * congruence.
      * congruence.
      * destruct Law. congruence.
      * congruence.
Qed.

Lemma update_focus :
  focus m1 = if critical (at_ th') then at_ th'
             else if critical (at_ th) then Idle else focus m.
Proof.
  destruct Hexcl as [Hh Hheld]. pose proof Hlaw as Law. unfold lawful in Law.
  destruct (critical (at_ th')) eqn:Ec'.
  - apply (focus_holder m1 t th' update_exclusive update_lookup_same Ec').
  - destruct (critical (at_ th)) eqn:Ec.
    + apply focus_free. exact Law.
    + unfold focus at 1. simpl mt_. rewrite Law. unfold focus.
      destruct (mt_ m) as [t'|] eqn:Em; [| reflexivity].
      destruct (decide (t' = t)) as [-> | Hne].
      * destruct (Hheld t eq_refl) as (th0 & Hl0 & Hc0). congruence.
      * rewrite (update_lookup_other t' Hne). reflexivity.
Qed.

End Update.

(** ** The interleaved statements: the counters *)

Lemma vec_size_nonneg l : 0 <= vec_size l.
Proof. unfold vec_size. lia. Qed.

Ltac bool_facts :=
  repeat match goal with
         | H : (_ <? _) = true |- _ => apply Z.ltb_lt in H
         | H : (_ <? _) = false |- _ => apply Z.ltb_ge in H
         | H : (_ =? _) = true |- _ => apply Z.eqb_eq in H
         | H : (_ =? _) = false |- _ => apply Z.eqb_neq in H
         end.

(** Facts on the one wrapped operation of a statement. *)
Ltac wrap_facts :=
  try match goal with
      | |- context [to_size_t ?x] =>
          pose proof (to_size_t_range x); pose proof (to_size_t_small x);
          pose proof (to_size_t_le x)
      end.

Ltac solve_numeric :=
  first
    [ exact I
    | assumption
    | lia
    | apply vec_size_nil_iff; lia
    | intros ?E; apply vec_size_nil_iff in E; lia
    | split; [tauto | reflexivity]
    | rewrite vec_size_pop by tauto; lia
    | rewrite vec_size_push; lia
    | match goal with
      | H : connections_ _ = [] |- _ => apply vec_size_nil_iff in H; lia
      end ].

(** A statement of a locked region keeps the counters consistent with
    what is pending at the next statement, or with nothing pending when it
    leaves the region; it never lowers [connectionsAlive_] and never
    touches [poolSize_]. *)
Lemma action_numeric_inside e th p h mt th' p' h' mt' nfy :
  action e th p h mt = Some (th', p', h', mt', nfy) ->
  critical (at_ th) = true -> numeric (at_ th) p ->
  numeric (if critical (at_ th') then at_ th' else Idle) p'
  /\ connectionsAlive_ p <= connectionsAlive_ p' /\ poolSize_ p' = poolSize_ p.
Proof.
  intros H Hc Hnum. action_cases H; try discriminate.
  all: destruct Hnum as [Hp Hf Ha Hs Hk]; simpl in *; bool_facts; wrap_facts;
    unfold is_size_t in *.
  all: split; [split; simpl; solve_numeric | split; [solve_numeric | reflexivity]].
Qed.

(** ** Waking sleeping threads *)

Lemma wake_asleep th :
  asleep th = true ->
  critical (at_ th) = false /\ critical (at_ (wake th)) = false
  /\ handles (wake th) = handles th /\ releasing_own (wake th).
Proof.
  unfold asleep, wake, releasing_own. destruct (at_ th) eqn:E; try discriminate.
  intros _. simpl. auto.
Qed.

Lemma roused_refl ths : roused ths ths.
Proof. apply Forall2_same_length_lookup. split; [reflexivity |]. intros; simplify_eq. auto. Qed.

Lemma roused_insert ths w th :
  ths !! w = Some th -> asleep th = true -> roused ths (<[w := wake th]> ths).
Proof.
  intros Hl Ha. unfold roused.
  rewrite <- (list_insert_id ths w th Hl) at 1.
  apply Forall2_insert; [apply roused_refl | auto].
Qed.

Lemma notify_one_roused w ths ths' : notify_one w ths = Some ths' -> roused ths ths'.
Proof.
  unfold notify_one. intros H.
  destruct (existsb asleep ths); [| simplify_eq; apply roused_refl].
  destruct (ths !! w) as [th|] eqn:Hl; [| discriminate].
  destruct (asleep th) eqn:Ha; [| discriminate].
  simplify_eq. apply roused_insert; assumption.
Qed.

Lemma roused_lookup_r ths ths' t th' :
  roused ths ths' -> ths' !! t = Some th' ->
  exists th, ths !! t = Some th /\ (th' = th \/ (asleep th = true /\ th' = wake th)).
Proof.
  intros Hr Hl. destruct (Forall2_lookup_r _ _ _ _ _ Hr Hl) as (th & H1 & H2). eauto.
Qed.

Lemma roused_lookup_l ths ths' t th :
  roused ths ths' -> ths !! t = Some th ->
  exists th', ths' !! t = Some th' /\ (th' = th \/ (asleep th = true /\ th' = wake th)).
Proof.
  intros Hr Hl. destruct (Forall2_lookup_l _ _ _ _ _ Hr Hl) as (th' & H1 & H2). eauto.
Qed.

Lemma roused_exclusive p h mt ths ths' :
  roused ths ths' -> exclusive (MkMachine p h mt ths) -> exclusive (MkMachine p h mt ths').
Proof.
  intros Hr [Hh Hheld]. simpl in *. split; simpl.
  - intros t th' Hl Hc.
    destruct (roused_lookup_r _ _ _ _ Hr Hl) as (th & Hl0 & [-> | [Ha ->]]).
    + eapply Hh; eassumption.
    + destruct (wake_asleep th Ha) as (_ & Hw & _). congruence.
  - intros t Hm. destruct (Hheld t Hm) as (th & Hl & Hc).
    destruct (roused_lookup_l _ _ _ _ Hr Hl) as (th' & Hl' & [-> | [Ha ->]]).
    + eauto.
    + destruct (wake_asleep th Ha) as (Hw & _). congruence.
Qed.

Lemma roused_focus p h mt ths ths' :
  roused ths ths' -> exclusive (MkMachine p h mt ths) ->
  focus (MkMachine p h mt ths') = focus (MkMachine p h mt ths).
Proof.
  intros Hr [Hh Hheld]. unfold focus. simpl in *.
  destruct mt as [t|]; [| reflexivity].
  destruct (Hheld t eq_refl) as (th & Hl & Hc). rewrite Hl.
  destruct (roused_lookup_l _ _ _ _ Hr Hl) as (th' & Hl' & [-> | [Ha ->]]); rewrite Hl'.
  - reflexivity.
  - destruct (wake_asleep th Ha) as (Hw & _). congruence.
Qed.

Lemma roused_handles ths ths' : roused ths ths' -> all_handles ths' = all_handles ths.
Proof.
  unfold all_handles. intros Hr. f_equal.
  induction Hr as [|a b l k Hab Hr IH]; [reflexivity |].
  rewrite !fmap_cons, IH. f_equal.
  destruct Hab as [-> | [Ha ->]]; [reflexivity | apply (wake_asleep a Ha)].
Qed.

Lemma roused_releasing ths ths' :
  roused ths ths' -> Forall releasing_own ths -> Forall releasing_own ths'.
Proof.
  intros Hr. induction Hr as [|a b l k Hab Hr IH]; intros HF; [constructor |].
  apply Forall_cons in HF as [Ha HF]. constructor; [| apply IH, HF].
  destruct Hab as [-> | [Hs ->]]; [exact Ha | apply (wake_asleep a Hs)].
Qed.

(** ** A step, taken apart *)

Lemma step_inversion e m m' :
  step e m = Some m' ->
  exists th th' nfy,
    threads m !! actor e = Some th
    /\ action e th (shared m) (objects m) (mt_ m)
       = Some (th', shared m', objects m', mt_ m', nfy)
    /\ roused (<[actor e := th']> (threads m)) (threads m').
Proof.
  unfold step. intros H.
  destruct (threads m !! actor e) as [th|] eqn:Hl; [| discriminate].
  destruct (action e th (shared m) (objects m) (mt_ m)) as [[[[[th' p'] h'] mt'] nfy]|] eqn:Ha;
    [| discriminate].
  destruct nfy.
  - destruct (notify_one (designated e) (<[actor e:=th']> (threads m))) as [ths'|] eqn:Hn;
      [| discriminate].
    simplify_eq. exists th, th', true. simpl.
    split; [reflexivity |]. split; [exact Ha | eapply notify_one_roused, Hn].
  - simplify_eq. exists th, th', false. simpl.
    split; [reflexivity |]. split; [exact Ha | apply roused_refl].
Qed.

(** Every step preserves mutual exclusion and the consistency of the
    counters, never lowers [connectionsAlive_], never changes [poolSize_]. *)
Lemma step_sane e m m' :
  step e m = Some m' -> sane m ->
  sane m'
  /\ connectionsAlive_ (shared m) <= connectionsAlive_ (shared m')
  /\ poolSize_ (shared m') = poolSize_ (shared m).
Proof.
  intros Hstep [Hexcl Hnum].
  destruct (step_inversion e m m' Hstep) as (th & th' & nfy & Hl & Ha & Hr).
  pose proof (action_lawful _ _ _ _ _ _ _ _ _ _ Ha) as Hlaw.
  pose proof (update_exclusive m (actor e) th th' (shared m') (objects m') (mt_ m')
                Hexcl Hl Hlaw) as Hexcl1.
  pose proof (update_focus m (actor e) th th' (shared m') (objects m') (mt_ m')
                Hexcl Hl Hlaw) as Hfocus1.
  assert (exclusive m') as Hexcl'.
  { destruct m' as [p' h' mt' ths']. simpl in *. eapply roused_exclusive; eassumption. }
  assert (focus m' = focus (MkMachine (shared m') (objects m') (mt_ m')
                              (<[actor e := th']> (threads m)))) as Hfocus'.
  { destruct m' as [p' h' mt' ths']. simpl in *. apply roused_focus; assumption. }
  rewrite Hfocus1 in Hfocus'.
  destruct (critical (at_ th)) eqn:Ec.
  - rewrite (focus_holder m (actor e) th Hexcl Hl Ec) in Hnum.
    destruct (action_numeric_inside _ _ _ _ _ _ _ _ _ _ Ha Ec Hnum) as (Hn' & Hal & Hps).
    split; [| split; assumption].
    split; [exact Hexcl' |]. rewrite Hfocus'. exact Hn'.
  - destruct (action_outside _ _ _ _ _ _ _ _ _ _ Ha Ec) as (Hp & Hh & _ & Hpend & Hknown & _).
    rewrite Hp. split; [| split; [lia | reflexivity]].
    split; [exact Hexcl' |]. rewrite Hfocus', Hp.
    destruct (critical (at_ th')) eqn:Ec'; [| exact Hnum].
    unfold lawful in Hlaw. rewrite Ec, Ec' in Hlaw.
    rewrite (focus_free m (proj1 Hlaw)) in Hnum.
    destruct Hnum as [H1 H2 H3 H4 H5]. split; try assumption.
    rewrite Hpend. simpl in H4. exact H4.
Qed.

Lemma start_sane poolSize n : sane (start poolSize n).
Proof.
  split.
  - split; simpl.
    + intros t th Hl Hc. apply lookup_replicate in Hl as [-> _]. discriminate.
    + intros t Hm. discriminate.
  - unfold focus. simpl. pose proof (bounded_new poolSize) as [H1 H2 H3 H4].
    split; simpl in *; try assumption; [lia | exact I].
Qed.

Lemma play_sane es m m' :
  play es m = Some m' -> sane m ->
  sane m'
  /\ connectionsAlive_ (shared m) <= connectionsAlive_ (shared m')
  /\ poolSize_ (shared m') = poolSize_ (shared m).
Proof.
  revert m. induction es as [|e es IH]; intros m Hp Hs; simpl in Hp.
  - simplify_eq. split; [exact Hs | split; [lia | reflexivity]].
  - destruct (step e m) as [m1|] eqn:E; [| discriminate].
    destruct (step_sane e m m1 E Hs) as (Hs1 & Ha1 & Hp1).
    destruct (IH m1 Hp Hs1) as (Hs' & Ha' & Hp').
    split; [exact Hs' | split; [lia | congruence]].
Qed.

(** ** The interleaved statements: who has which connection *)

Lemma all_handles_insert ths t th :
  ths !! t = Some th ->
  exists R, all_handles ths ≡ₚ handles th ++ R
            /\ forall th', all_handles (<[t := th']> ths) ≡ₚ handles th' ++ R.
Proof.
  intros Hl.
  exists (all_handles (take t ths) ++ all_handles (drop (S t) ths)).
  assert (forall x, all_handles (take t ths ++ x :: drop (S t) ths)
                    ≡ₚ handles x ++ all_handles (take t ths) ++ all_handles (drop (S t) ths)) as Hx.
  { intros x. unfold all_handles. rewrite fmap_app, fmap_cons, concat_app. simpl.
    rewrite Permutation_app_swap_app. reflexivity. }
  split.
  - rewrite <- (take_drop_middle ths t th Hl) at 1. apply Hx.
  - intros th'. rewrite insert_take_drop by (eapply lookup_lt_Some, Hl). apply Hx.
Qed.

Lemma action_releasing e th p h mt th' p' h' mt' nfy :
  action e th p h mt = Some (th', p', h', mt', nfy) ->
  allowed_for e th -> releasing_own th -> releasing_own th'.
Proof.
  intros H Hall Hrel. unfold releasing_own in *.
  action_cases H; try exact I; auto.
Qed.

(** A statement of a locked region moves a handle between the cache, a
    local variable and the caller's variables, or adds the new
    connection to both sides. *)
Lemma action_owned_inside e th p h mt th' p' h' mt' nfy R :
  action e th p h mt = Some (th', p', h', mt', nfy) ->
  critical (at_ th) = true -> known (at_ th) p -> releasing_own th ->
  connections_ p ++ in_transit (at_ th) ++ handles th ++ R ≡ₚ created h ->
  connections_ p' ++ in_transit (if critical (at_ th') then at_ th' else Idle)
    ++ handles th' ++ R ≡ₚ created h'.
Proof.
  intros H Hc Hk Hrel Hown. unfold releasing_own in Hrel.
  action_cases H; try discriminate; try exact Hown.
  - (* make_shared *)
    rewrite created_snoc, <- Hown, Hk. simpl. apply Permutation_cons_append.
  - (* pop_back *)
    destruct Hk as [Hne Hback]. rewrite <- Hown.
    rewrite (vec_nonempty_push _ Hne) at 2. rewrite Hback.
    unfold vec_push_back. rewrite <- app_assoc. reflexivity.
  - (* push_back *)
    rewrite <- Hown. unfold vec_push_back.
    rewrite (let_go_perm _ _ Hrel) at 2. rewrite <- app_assoc. reflexivity.
Qed.

Lemma allowed_allowed_for e m th :
  allowed e m = true -> threads m !! actor e = Some th -> allowed_for e th.
Proof.
  intros Ha Hl. destruct e; simpl in *; try exact I.
  rewrite Hl in Ha. apply bool_decide_eq_true in Ha. exact Ha.
Qed.

(** Under correct usage every step keeps each created connection in
    exactly one place. *)
Lemma step_owned e m m' :
  step e m = Some m' -> allowed e m = true -> sane m -> owned m -> owned m'.
Proof.
  intros Hstep Hall [Hexcl Hnum] [Hplaced Hrel].
  destruct (step_inversion e m m' Hstep) as (th & th' & nfy & Hl & Ha & Hr).
  pose proof (action_lawful _ _ _ _ _ _ _ _ _ _ Ha) as Hlaw.
  pose proof (update_exclusive m (actor e) th th' (shared m') (objects m') (mt_ m')
                Hexcl Hl Hlaw) as Hexcl1.
  pose proof (update_focus m (actor e) th th' (shared m') (objects m') (mt_ m')
                Hexcl Hl Hlaw) as Hfocus1.
  pose proof (allowed_allowed_for e m th Hall Hl) as Hfor.
  assert (releasing_own th) as Hrel_th.
  { eapply Forall_lookup_1; eassumption. }
  pose proof (action_releasing _ _ _ _ _ _ _ _ _ _ Ha Hfor Hrel_th) as Hrel_th'.
  destruct (all_handles_insert _ _ _ Hl) as (R & HR & HR').
  assert (focus m' = focus (MkMachine (shared m') (objects m') (mt_ m')
                              (<[actor e := th']> (threads m)))) as Hfocus'.
  { destruct m' as [p' h' mt' ths']. simpl in *. apply roused_focus; assumption. }
  rewrite Hfocus1 in Hfocus'.
  split.
  - unfold placed in *. rewrite Hfocus', (roused_handles _ _ Hr), (HR' th').
    rewrite HR in Hplaced.
    destruct (critical (at_ th)) eqn:Ec.
    + rewrite (focus_holder m (actor e) th Hexcl Hl Ec) in Hplaced, Hnum.
      apply (action_owned_inside _ _ _ _ _ _ _ _ _ _ R Ha Ec
               (numeric_known _ _ Hnum) Hrel_th Hplaced).
    + destruct (action_outside _ _ _ _ _ _ _ _ _ _ Ha Ec)
        as (Hp & Hh & _ & _ & _ & Htr & Hhs).
      rewrite Hp, Hh, Hhs.
      destruct (critical (at_ th')) eqn:Ec'; [| exact Hplaced].
      unfold lawful in Hlaw. rewrite Ec, Ec' in Hlaw.
      rewrite (focus_free m (proj1 Hlaw)) in Hplaced. rewrite Htr. exact Hplaced.
  - eapply roused_releasing; [exact Hr |].
    apply Forall_insert; assumption.
Qed.

Lemma start_owned poolSize n : owned (start poolSize n).
Proof.
  split.
  - unfold placed, focus, all_handles, created. simpl.
    induction n as [|n IH]; simpl; [constructor | exact IH].
  - apply Forall_forall. intros th Hin. apply elem_of_replicate in Hin as [-> _]. exact I.
Qed.

Lemma play_owned es m m' :
  play es m = Some m' -> well_behaved es m = true -> sane m -> owned m -> owned m'.
Proof.
  revert m. induction es as [|e es IH]; intros m Hp Hw Hs Ho; simpl in *.
  - simplify_eq. exact Ho.
  - apply andb_true_iff in Hw as [Ha Hw].
    destruct (step e m) as [m1|] eqn:E; [| discriminate].
    apply (IH m1 Hp Hw).
    + apply (step_sane e m m1 E Hs).
    + apply (step_owned e m m1 E Ha Hs Ho).
Qed.

(** ** A member function run without interference

    The statements of one call, executed in a row by a thread that finds
    [mt_] free, do to the pool what the member function does as a whole. *)

Lemma play_begin e p h mt ths t th th' rest :
  (t < length ths)%nat -> actor e = t ->
  action e th p h mt = Some (th', p, h, mt, false) ->
  play (e :: rest) (MkMachine p h mt (<[t := th]> ths))
  = play rest (MkMachine p h mt (<[t := th']> ths)).
Proof.
  intros Hlt He Ha. simpl play. unfold step. simpl. rewrite He.
  rewrite list_lookup_insert_eq by exact Hlt. rewrite Ha.
  rewrite list_insert_insert_eq. reflexivity.
Qed.

Lemma play_statement t w p h mt ths th th' p' h' mt' rest :
  (t < length ths)%nat ->
  statement t th p h mt = Some (th', p', h', mt', false) ->
  play (Statement t w :: rest) (MkMachine p h mt (<[t := th]> ths))
  = play rest (MkMachine p' h' mt' (<[t := th']> ths)).
Proof.
  intros Hlt Hs. simpl play. unfold step. simpl.
  rewrite list_lookup_insert_eq by exact Hlt. rewrite Hs.
  rewrite list_insert_insert_eq. reflexivity.
Qed.

Lemma play_notify t w p h mt ths th th' p' h' mt' ths' rest :
  (t < length ths)%nat ->
  statement t th p h mt = Some (th', p', h', mt', true) ->
  notify_one w (<[t := th']> ths) = Some ths' ->
  play (Statement t w :: rest) (MkMachine p h mt (<[t := th]> ths))
  = play rest (MkMachine p' h' mt' ths').
Proof.
  intros Hlt Hs Hn. simpl play. unfold step. simpl.
  rewrite list_lookup_insert_eq by exact Hlt. rewrite Hs.
  rewrite list_insert_insert_eq, Hn. reflexivity.
Qed.

(** One statement of the run: rewrite with [play_statement], computing
    the statement on the way; [tac] settles the test the statement makes. *)
Ltac run_statement Hlt tac :=
  erewrite play_statement;
  [| exact Hlt | unfold statement, goto; simpl; tac; simpl; reflexivity].

(** X9: a call of [GetConnection] that finds [mt_] free and is not
    interleaved with other threads does what the member function does as a
    whole.  It returns after seven statements with that result and pool;
    when [stoi] throws, the exception reaches the caller after five
    statements, with the slot taken; with no free slot the thread is
    asleep after two statements and the pool is untouched.  In all three
    cases [mt_] is free again at the end. *)
Lemma GetConnection_run m t w th threadId :
  threads m !! t = Some th -> at_ th = Idle -> mt_ m = None ->
  match GetConnection (shared m) (objects m) threadId with
  | (Returned ptr, p', h') =>
      play (BeginGet t threadId :: replicate 7 (Statement t w)) m
      = Some (MkMachine p' h' None
                (<[t := MkThread Idle (ptr :: handles th) (seen th) (caught th)]> (threads m)))
  | (Thrown e, p', h') =>
      play (BeginGet t threadId :: replicate 5 (Statement t w)) m
      = Some (MkMachine p' h' None
                (<[t := MkThread Idle (handles th) (seen th) (e :: caught th)]> (threads m)))
  | (Blocked, p', h') =>
      play (BeginGet t threadId :: replicate 2 (Statement t w)) m
      = Some (MkMachine p' h' None (<[t := goto th (GetAsleep threadId)]> (threads m)))
  end.
Proof.
  intros Hl Hat Hmt.
  assert (t < length (threads m))%nat as Hlt by (eapply lookup_lt_Some, Hl).
  destruct m as [p h mt ths]. destruct th as [c hs sn cg].
  simpl in Hl, Hat, Hmt, Hlt. subst c mt.
  unfold shared, objects, threads, handles, seen, caught, goto.
  assert (MkMachine p h None ths
          = MkMachine p h None (<[t := MkThread Idle hs sn cg]> ths)) as Hm.
  { rewrite (list_insert_id ths t _ Hl). reflexivity. }
  get_cases p h threadId; rewrite Eget.
  - (* growth *)
    apply Z.ltb_lt in Hfree as Hb.
    destruct (stoi threadId) as [e | i] eqn:Hstoi; simpl replicate; rewrite Hm.
    + erewrite play_begin; [| exact Hlt | reflexivity | reflexivity].
      run_statement Hlt idtac. run_statement Hlt ltac:(rewrite Hb).
      run_statement Hlt idtac. run_statement Hlt ltac:(rewrite Hcache).
      run_statement Hlt ltac:(rewrite Hstoi).
      reflexivity.
    + erewrite play_begin; [| exact Hlt | reflexivity | reflexivity].
      run_statement Hlt idtac. run_statement Hlt ltac:(rewrite Hb).
      run_statement Hlt idtac. run_statement Hlt ltac:(rewrite Hcache).
      run_statement Hlt ltac:(rewrite Hstoi).
      run_statement Hlt idtac. run_statement Hlt idtac.
      unfold set_alive, set_free. simpl. rewrite Hcache. reflexivity.
  - (* reuse *)
    apply Z.ltb_lt in Hfree as Hb.
    assert ((vec_size (connections_ p) =? 0) = false) as Hs.
    { apply Z.eqb_neq. intros E. apply vec_size_nil_iff in E. contradiction. }
    simpl replicate. rewrite Hm.
    erewrite play_begin; [| exact Hlt | reflexivity | reflexivity].
    run_statement Hlt idtac. run_statement Hlt ltac:(rewrite Hb).
    run_statement Hlt idtac. run_statement Hlt ltac:(rewrite Hs).
    run_statement Hlt idtac. run_statement Hlt idtac. run_statement Hlt idtac.
    reflexivity.
  - (* blocked *)
    assert ((0 <? free_ p) = false) as Hb by (apply Z.ltb_ge; lia).
    simpl replicate. rewrite Hm.
    erewrite play_begin; [| exact Hlt | reflexivity | reflexivity].
    run_statement Hlt idtac. run_statement Hlt ltac:(rewrite Hb). reflexivity.
Qed.

Lemma existsb_asleep_insert ths t th th' :
  ths !! t = Some th -> asleep th = false -> asleep th' = false ->
  existsb asleep (<[t := th']> ths) = existsb asleep ths.
Proof.
  revert t. induction ths as [|a ths IH]; intros [|t] Hl Ha Ha'; simpl in *; try discriminate.
  - simplify_eq. rewrite Ha, Ha'. reflexivity.
  - rewrite (IH t Hl Ha Ha'). reflexivity.
Qed.

Lemma notify_one_insert w ths ths' t th th' :
  ths !! t = Some th -> asleep th = false -> asleep th' = false ->
  notify_one w ths = Some ths' ->
  notify_one w (<[t := th']> ths) = Some (<[t := th']> ths').
Proof.
  intros Hl Ha Ha' Hn. unfold notify_one in *.
  rewrite (existsb_asleep_insert ths t th th' Hl Ha Ha').
  destruct (existsb asleep ths); [| simplify_eq; reflexivity].
  destruct (ths !! w) as [thw|] eqn:Hw; [| discriminate].
  destruct (asleep thw) eqn:Haw; [| discriminate]. simplify_eq.
  assert (t <> w) as Hne by (intros ->; congruence).
  rewrite list_lookup_insert_ne by exact Hne. rewrite Hw, Haw.
  rewrite (list_insert_insert_ne ths t w) by exact Hne. reflexivity.
Qed.

Lemma notify_one_length w ths ths' : notify_one w ths = Some ths' -> length ths' = length ths.
Proof. intros H. symmetry. eapply Forall2_length, notify_one_roused, H. Qed.

Lemma FreeConnection_run m t w th connection ths' :
  threads m !! t = Some th -> at_ th = Idle -> mt_ m = None ->
  notify_one w (threads m) = Some ths' ->
  play (BeginFree t connection :: replicate 5 (Statement t w)) m
  = Some (MkMachine (FreeConnection (shared m) connection).1.2 (objects m) None
            (<[t := MkThread Idle (let_go connection (handles th)) (seen th) (caught th)]>
               ths')).
Proof.
  intros Hl Hat Hmt Hn.
  assert (t < length (threads m))%nat as Hlt by (eapply lookup_lt_Some, Hl).
  destruct m as [p h mt ths]. destruct th as [c hs sn cg].
  simpl in Hl, Hat, Hmt, Hlt, Hn. subst c mt.
  unfold shared, objects, threads, handles, seen, caught.
  assert (MkMachine p h None ths
          = MkMachine p h None (<[t := MkThread Idle hs sn cg]> ths)) as Hm.
  { rewrite (list_insert_id ths t _ Hl). reflexivity. }
  pose proof (notify_one_length _ _ _ Hn) as Hlen.
  simpl replicate. rewrite Hm.
  erewrite play_begin; [| exact Hlt | reflexivity | reflexivity].
  run_statement Hlt idtac. run_statement Hlt idtac. run_statement Hlt idtac.
  erewrite play_notify;
    [| exact Hlt | unfold statement, goto; simpl; reflexivity
     | eapply notify_one_insert; [exact Hl | reflexivity | reflexivity | exact Hn] ].
  erewrite play_statement;
    [| rewrite Hlen; exact Hlt | unfold statement, goto; simpl; reflexivity].
  reflexivity.
Qed.

(** ** Lists of lists without duplicates *)

Lemma elem_of_concat_lookup {A : Type} (ls : list (list A)) i l x :
  ls !! i = Some l -> x ∈ l -> x ∈ concat ls.
Proof.
  revert i. induction ls as [|k ls IH]; intros [|i] Hl Hx; simpl in *; try discriminate.
  - simplify_eq. apply elem_of_app. left. exact Hx.
  - apply elem_of_app. right. eapply IH; eassumption.
Qed.

Lemma NoDup_concat_lookup {A : Type} (ls : list (list A)) i j l1 l2 x :
  NoDup (concat ls) -> ls !! i = Some l1 -> ls !! j = Some l2 ->
  x ∈ l1 -> x ∈ l2 -> i = j.
Proof.
  revert i j. induction ls as [|k ls IH]; intros i j Hnd Hi Hj H1 H2; [discriminate |].
  simpl in Hnd. apply NoDup_app in Hnd as (Hk & Hdisj & Hrest).
  destruct i as [|i], j as [|j]; simpl in *; simplify_eq.
  - reflexivity.
  - exfalso. apply (Hdisj x H1). eapply elem_of_concat_lookup; eassumption.
  - exfalso. apply (Hdisj x H2). eapply elem_of_concat_lookup; eassumption.
  - f_equal. eapply IH; eassumption.
Qed.

Lemma NoDup_concat_part {A : Type} (ls : list (list A)) i l :
  NoDup (concat ls) -> ls !! i = Some l -> NoDup l.
Proof.
  revert i. induction ls as [|k ls IH]; intros i Hnd Hi; [discriminate |].
  simpl in Hnd. apply NoDup_app in Hnd as (Hk & _ & Hrest).
  destruct i as [|i]; simpl in *; simplify_eq; [exact Hk | eapply IH; eassumption].
Qed.

(** ** Accessors called while a thread is inside GetConnection *)

(** C2, on the code: [ConnectionPool pool(5)], thread 0 calls
    [GetConnection("1")] and is stopped right after [--free_]; thread 1
    then calls [ConnectionsInUse()] and [ConnectionsAlive()], in the order
    of [main], and is returned 1 and 0. *)
Theorem accessors_observe_torn_counters :
  let es := [BeginGet 0 "1"; Statement 0 0; Statement 0 0; Statement 0 0;
             Observe 1 ReadConnectionsInUse; Observe 1 ReadConnectionsAlive] in
  well_behaved es (start 5 2) = true
  /\ play es (start 5 2)
     = Some {| shared := {| connections_ := []; connectionsAlive_ := 0;
                            free_ := 4; poolSize_ := 5 |};
               objects := [];
               mt_ := Some 0%nat;
               threads :=
                 [ {| at_ := GetTest "1"; handles := []; seen := []; caught := [] |};
                   {| at_ := Idle; handles := [];
                      seen := [(ReadConnectionsAlive, 0); (ReadConnectionsInUse, 1)];
                      caught := [] |} ] |}
  /\ match play es (start 5 2) with
     | Some m => ConnectionsAlive (shared m) < ConnectionsInUse (shared m)
     | None => False
     end.
Proof.
  split; [reflexivity |]. split; reflexivity.
Qed.

(** ** Exclusive ownership under every interleaving *)

(** C5: in every state that a schedule of correctly used calls reaches,
    the idle cache and the variables of all threads together hold no
    connection twice: none is at once idle and checked out, no two threads
    hold the same one, no thread holds one twice, and no handle held is
    null.  When no thread is inside a locked region, the cache and the
    threads' variables list every created connection exactly once. *)
Theorem exclusive_ownership poolSize n es m :
  play es (start poolSize n) = Some m ->
  well_behaved es (start poolSize n) = true ->
  NoDup (connections_ (shared m) ++ all_handles (threads m))
  /\ (forall t th c, threads m !! t = Some th -> c ∈ handles th ->
        (c ∉ connections_ (shared m)) /\ c <> nullptr)
  /\ (forall t1 t2 th1 th2 c,
        threads m !! t1 = Some th1 -> threads m !! t2 = Some th2 ->
        c ∈ handles th1 -> c ∈ handles th2 -> t1 = t2)
  /\ (forall t th, threads m !! t = Some th -> NoDup (handles th))
  /\ (mt_ m = None ->
        connections_ (shared m) ++ all_handles (threads m) ≡ₚ created (objects m)).
Proof.
  intros Hp Hw.
  pose proof (play_sane es _ m Hp (start_sane poolSize n)) as (Hs & _ & _).
  pose proof (play_owned es _ m Hp Hw (start_sane poolSize n) (start_owned poolSize n))
    as [Hown _].
  unfold placed in Hown.
  assert (NoDup (connections_ (shared m) ++ in_transit (focus m) ++ all_handles (threads m)))
    as Hnd by (rewrite Hown; apply created_NoDup).
  apply NoDup_app in Hnd as (Hc & Hdisj & Hnd).
  apply NoDup_app in Hnd as (_ & _ & Hh).
  assert (forall t th c, threads m !! t = Some th -> c ∈ handles th ->
                         c ∈ all_handles (threads m)) as Hin.
  { intros t th c Hl Hc'. unfold all_handles.
    apply (elem_of_concat_lookup _ t (handles th)); [| exact Hc'].
    rewrite list_lookup_fmap, Hl. reflexivity. }
  split; [| split; [| split; [| split]]].
  - apply NoDup_app. split; [exact Hc |]. split; [| exact Hh].
    intros c Hc1 Hc2. apply (Hdisj c Hc1). apply elem_of_app. right. exact Hc2.
  - intros t th c Hl Hc'. pose proof (Hin t th c Hl Hc') as Hall. split.
    + intros Hc1. apply (Hdisj c Hc1). apply elem_of_app. right. exact Hall.
    + intros ->. assert (nullptr ∈ created (objects m)) as Hbad.
      { rewrite <- Hown. apply elem_of_app. right. apply elem_of_app. right. exact Hall. }
      apply elem_of_created in Hbad as (a & Ha & _). discriminate Ha.
  - intros t1 t2 th1 th2 c Hl1 Hl2 Hc1 Hc2.
    apply (NoDup_concat_lookup (handles <$> threads m) t1 t2 (handles th1) (handles th2) c Hh);
      try assumption; rewrite list_lookup_fmap.
    + rewrite Hl1. reflexivity.
    + rewrite Hl2. reflexivity.
  - intros t th Hl.
    apply (NoDup_concat_part (handles <$> threads m) t (handles th) Hh).
    rewrite list_lookup_fmap, Hl. reflexivity.
  - intros Hmt. rewrite (focus_free m Hmt) in Hown. exact Hown.
Qed.

Lemma exclusive_ownership_witness :
  play handover (start 1 2)
  = Some {| shared := {| connections_ := []; connectionsAlive_ := 1;
                         free_ := 0; poolSize_ := 1 |};
            objects := [{| id := 1 |}];
            mt_ := None;
            threads := [ {| at_ := Idle; handles := []; seen := []; caught := [] |};
                         {| at_ := Idle; handles := [Some 0%nat]; seen := []; caught := [] |} ] |}
  /\ well_behaved handover (start 1 2) = true
  /\ NoDup ([] ++ all_handles
                    [ {| at_ := Idle; handles := []; seen := []; caught := [] |};
                      {| at_ := Idle; handles := [Some 0%nat]; seen := []; caught := [] |} ]).
Proof.
  split; [reflexivity |]. split; [reflexivity |].
  apply (exclusive_ownership 1 2 handover
           {| shared := {| connections_ := []; connectionsAlive_ := 1;
                           free_ := 0; poolSize_ := 1 |};
              objects := [{| id := 1 |}];
              mt_ := None;
              threads := [ {| at_ := Idle; handles := []; seen := []; caught := [] |};
                           {| at_ := Idle; handles := [Some 0%nat]; seen := [];
                              caught := [] |} ] |});
    reflexivity.
Defined.

(** ** Room to create *)

(** C6: in every state a schedule reaches (correct usage or not, between
    calls or in the middle of one), a free slot with an empty cache means
    [ConnectionsAlive() < PoolSize()]; and a thread that has passed the
    test [connections_.size() == 0] and stands before [make_shared] finds
    [ConnectionsAlive() < PoolSize()], so the connection it creates fits
    under the capacity. *)
Theorem free_slot_and_empty_cache_leave_room poolSize n es m :
  play es (start poolSize n) = Some m ->
  (0 < free_ (shared m) -> connections_ (shared m) = [] ->
   ConnectionsAlive (shared m) < PoolSize (shared m))
  /\ (forall t th threadId,
        threads m !! t = Some th -> at_ th = GetNew threadId ->
        connections_ (shared m) = []
        /\ ConnectionsAlive (shared m) < PoolSize (shared m)).
Proof.
  intros Hp.
  pose proof (play_sane es _ m Hp (start_sane poolSize n)) as ([Hexcl Hnum] & _ & _).
  unfold ConnectionsAlive, PoolSize. split.
  - intros Hfree Hcache. destruct Hnum as [H1 H2 H3 H4 _].
    apply vec_size_nil_iff in Hcache.
    assert (0 <= pending (focus m)) by (destruct (focus m); simpl; lia).
    lia.
  - intros t th threadId Hl Hat.
    assert (critical (at_ th) = true) as Hc by (rewrite Hat; reflexivity).
    rewrite (focus_holder m t th Hexcl Hl Hc), Hat in Hnum.
    destruct Hnum as [H1 H2 H3 H4 H5]. simpl in H4, H5. split; [exact H5 |].
    apply vec_size_nil_iff in H5. unfold is_size_t in *. lia.
Qed.

Lemma free_slot_and_empty_cache_leave_room_witness :
  let m := {| shared := {| connections_ := []; connectionsAlive_ := 0;
                           free_ := 4; poolSize_ := 5 |};
              objects := []; mt_ := Some 0%nat;
              threads := [ {| at_ := GetNew "1"; handles := []; seen := []; caught := [] |} ] |} in
  play (BeginGet 0 "1" :: replicate 4 (Statement 0 0)) (start 5 1) = Some m
  /\ ConnectionsAlive (shared m) < PoolSize (shared m).
Proof.
  split; [reflexivity |].
  apply (free_slot_and_empty_cache_leave_room 5 1
           (BeginGet 0 "1" :: replicate 4 (Statement 0 0))
           {| shared := {| connections_ := []; connectionsAlive_ := 0;
                           free_ := 4; poolSize_ := 5 |};
              objects := []; mt_ := Some 0%nat;
              threads := [ {| at_ := GetNew "1"; handles := []; seen := [];
                              caught := [] |} ] |});
    [reflexivity | simpl; lia | reflexivity].
Defined.

(** ** Reuse *)

(** C7: when a slot is free and the cache is not empty, [GetConnection]
    returns the back of the cache, which is the handle pushed last by
    [FreeConnection], and pops it; it makes no object and leaves
    [connectionsAlive_] as it is. *)
Theorem GetConnection_reuses_last_released p h threadId :
  0 < free_ p -> connections_ p <> [] ->
  GetConnection p h threadId
    = (Returned (vec_back (connections_ p)),
       {| connections_ := vec_pop_back (connections_ p);
          connectionsAlive_ := connectionsAlive_ p;
          free_ := to_size_t (free_ p - 1);
          poolSize_ := poolSize_ p |},
       h)
  /\ (forall l c, connections_ p = vec_push_back l c ->
        vec_back (connections_ p) = c /\ vec_pop_back (connections_ p) = l)
  /\ (forall p0 c, connections_ p = connections_ (FreeConnection p0 c).1.2 ->
        vec_back (connections_ p) = c
        /\ vec_pop_back (connections_ p) = connections_ p0).
Proof.
  intros Hfree Hcache. split; [apply GetConnection_reuse; assumption |]. split.
  - intros l c ->. split; [apply vec_back_push | apply vec_pop_push].
  - intros p0 c ->. simpl. split; [apply vec_back_push | apply vec_pop_push].
Qed.

Lemma GetConnection_reuses_last_released_witness :
  let p := {| connections_ := [Some 2%nat; Some 0%nat]; connectionsAlive_ := 3;
              free_ := 2; poolSize_ := 3 |} in
  GetConnection p [{| id := 7 |}; {| id := 8 |}; {| id := 9 |}] "abc"
  = (Returned (Some 0%nat),
     {| connections_ := [Some 2%nat]; connectionsAlive_ := 3; free_ := 1; poolSize_ := 3 |},
     [{| id := 7 |}; {| id := 8 |}; {| id := 9 |}]).
Proof.
  apply (GetConnection_reuses_last_released
           {| connections_ := [Some 2%nat; Some 0%nat]; connectionsAlive_ := 3;
              free_ := 2; poolSize_ := 3 |}
           [{| id := 7 |}; {| id := 8 |}; {| id := 9 |}] "abc");
    [simpl; lia | discriminate].
Defined.

(** ** Connections alive *)

(** Call by call: no call lowers [connectionsAlive_], and it never exceeds
    the capacity, whatever the callers do. *)
Lemma calls_alive_monotone poolSize cs1 cs2 :
  ConnectionsAlive (pool (run cs1 (boot poolSize)))
    <= ConnectionsAlive (pool (run (cs1 ++ cs2) (boot poolSize)))
  /\ ConnectionsAlive (pool (run (cs1 ++ cs2) (boot poolSize)))
     <= PoolSize (pool (run (cs1 ++ cs2) (boot poolSize)))
  /\ PoolSize (pool (run (cs1 ++ cs2) (boot poolSize))) = to_size_t poolSize.
Proof.
  unfold ConnectionsAlive, PoolSize. rewrite run_app.
  pose proof (run_bounded cs1 _ (boot_bounded poolSize)) as Hb1.
  destruct (run_alive_mono cs1 _ (boot_bounded poolSize)) as [_ Hp1].
  destruct (run_alive_mono cs2 _ Hb1) as [Ha2 Hp2].
  pose proof (run_bounded cs2 _ Hb1) as [_ _ Hal _].
  split; [exact Ha2 |]. split; [apply Hal |]. rewrite Hp2, Hp1. reflexivity.
Qed.

(** C9: along every schedule, statement after statement and whatever the
    threads do (calls of [GetConnection], of [FreeConnection], of the
    accessors, wake-ups), [ConnectionsAlive()] never goes down, and it is
    at most [PoolSize()], the capacity given at construction. *)
Theorem connectionsAlive_monotone_bounded poolSize n es1 es2 m1 m2 :
  play es1 (start poolSize n) = Some m1 ->
  play es2 m1 = Some m2 ->
  ConnectionsAlive (shared m1) <= ConnectionsAlive (shared m2)
  /\ ConnectionsAlive (shared m2) <= PoolSize (shared m2)
  /\ PoolSize (shared m2) = to_size_t poolSize.
Proof.
  intros H1 H2. unfold ConnectionsAlive, PoolSize.
  destruct (play_sane es1 _ m1 H1 (start_sane poolSize n)) as (Hs1 & _ & Hp1).
  destruct (play_sane es2 m1 m2 H2 Hs1) as ([_ Hnum] & Ha2 & Hp2).
  split; [exact Ha2 |]. split; [apply (numeric_alive _ _ Hnum) |].
  rewrite Hp2, Hp1. reflexivity.
Qed.

Lemma connectionsAlive_monotone_bounded_witness :
  play ([BeginGet 0 "1"] ++ replicate 7 (Statement 0 0)
        ++ [BeginGet 1 "2"; Statement 1 0; Statement 1 0]) (start 1 2) = Some one_waiting
  /\ play ([BeginFree 0 (Some 0%nat)] ++ replicate 5 (Statement 0 1)
           ++ replicate 7 (Statement 1 0)) one_waiting
     = Some {| shared := {| connections_ := []; connectionsAlive_ := 1;
                            free_ := 0; poolSize_ := 1 |};
               objects := [{| id := 1 |}];
               mt_ := None;
               threads := [ {| at_ := Idle; handles := []; seen := []; caught := [] |};
                            {| at_ := Idle; handles := [Some 0%nat]; seen := [];
                               caught := [] |} ] |}
  /\ 1 <= 1 <= 1.
Proof.
  split; [reflexivity |]. split; [reflexivity |].
  destruct (connectionsAlive_monotone_bounded 1 2
              ([BeginGet 0 "1"] ++ replicate 7 (Statement 0 0)
               ++ [BeginGet 1 "2"; Statement 1 0; Statement 1 0])
              ([BeginFree 0 (Some 0%nat)] ++ replicate 5 (Statement 0 1)
               ++ replicate 7 (Statement 1 0))
              one_waiting
              {| shared := {| connections_ := []; connectionsAlive_ := 1;
                              free_ := 0; poolSize_ := 1 |};
                 objects := [{| id := 1 |}];
                 mt_ := None;
                 threads := [ {| at_ := Idle; handles := []; seen := []; caught := [] |};
                              {| at_ := Idle; handles := [Some 0%nat]; seen := [];
                                 caught := [] |} ] |}
              eq_refl eq_refl) as (Hmono & Hle & _).
  split; [exact Hmono | exact Hle].
Defined.

(** ** The caller's handle after release *)

(** C10: [FreeConnection] returns, and leaves the variable it was passed
    empty; what the variable held is now at the back of the cache.  So the
    assertion [assert(!connection)] of [ThreadFunc] (l.142) never fails. *)
Theorem FreeConnection_empties_handle p connection :
  (FreeConnection p connection).2 = nullptr
  /\ (FreeConnection p connection).1.1 = Returned tt
  /\ vec_back (connections_ (FreeConnection p connection).1.2) = connection
  /\ (forall h threadId, ThreadFunc_round p h threadId <> AssertFailed 142).
Proof.
  split; [reflexivity |]. split; [reflexivity |]. split; [apply vec_back_push |].
  intros h threadId. unfold ThreadFunc_round.
  destruct (GetConnection p h threadId) as [[[c | e |] p1] h1]; try discriminate.
  destruct c; discriminate.
Qed.

(** * Further properties of the pool *)

(** ** Release and acquire, composed *)

(** X1: a released handle is the one the next [GetConnection] returns,
    and that call puts the pool back exactly as it was before the release;
    no object is made, whatever the thread id. *)
Theorem release_then_acquire_restores p h threadId connection :
  is_size_t (free_ p) -> free_ p < SIZE_MAX ->
  GetConnection (FreeConnection p connection).1.2 h threadId = (Returned connection, p, h).
Proof.
  intros Hsz Hmax. destruct p as [cs alive free size]. simpl in Hsz, Hmax.
  unfold FreeConnection, move_from. simpl.
  assert (to_size_t (free + 1) = free + 1) as Hs by (apply to_size_t_succ; assumption).
  rewrite GetConnection_reuse.
  - simpl. rewrite Hs, vec_back_push, vec_pop_push.
    replace (free + 1 - 1) with free by lia.
    rewrite (to_size_t_small _ Hsz). reflexivity.
  - simpl. rewrite Hs. unfold is_size_t in Hsz. lia.
  - simpl. unfold vec_push_back. destruct cs; discriminate.
Qed.

Lemma release_then_acquire_restores_witness :
  GetConnection
    (FreeConnection {| connections_ := [Some 1%nat]; connectionsAlive_ := 2;
                       free_ := 1; poolSize_ := 2 |} (Some 0%nat)).1.2
    [{| id := 4 |}; {| id := 5 |}] "no number"
  = (Returned (Some 0%nat),
     {| connections_ := [Some 1%nat]; connectionsAlive_ := 2; free_ := 1; poolSize_ := 2 |},
     [{| id := 4 |}; {| id := 5 |}]).
Proof.
  apply (release_then_acquire_restores
           {| connections_ := [Some 1%nat]; connectionsAlive_ := 2;
              free_ := 1; poolSize_ := 2 |}
           [{| id := 4 |}; {| id := 5 |}] "no number" (Some 0%nat)).
  - unfold is_size_t. simpl. split; [lia | reflexivity].
  - reflexivity.
Defined.

(** ** ThreadFunc run alone *)

Lemma ThreadFunc_round_reuse p h threadId :
  is_size_t (free_ p) -> 0 < free_ p ->
  connections_ p <> [] -> vec_back (connections_ p) <> nullptr ->
  ThreadFunc_round p h threadId = RoundDone p h.
Proof.
  intros Hsz Hfree Hne Hback. unfold ThreadFunc_round.
  rewrite (GetConnection_reuse p h threadId Hfree Hne).
  destruct (vec_back (connections_ p)) as [a|] eqn:Eb; [| contradiction].
  unfold FreeConnection, move_from. simpl.
  rewrite (to_size_t_pred _ Hsz Hfree).
  replace (free_ p - 1 + 1) with (free_ p) by lia.
  rewrite (to_size_t_small _ Hsz), <- Eb, <- (vec_nonempty_push _ Hne).
  destruct p; reflexivity.
Qed.

Lemma ThreadFunc_round_growth p h threadId i :
  bounded p -> 0 < free_ p -> connections_ p = [] -> stoi threadId = inr i ->
  ThreadFunc_round p h threadId
  = RoundDone {| connections_ := [Some (length h)];
                 connectionsAlive_ := connectionsAlive_ p + 1;
                 free_ := free_ p; poolSize_ := poolSize_ p |}
              (h ++ [{| id := i |}]).
Proof.
  intros [Hp Hf Ha Hs] Hfree Hc Hstoi. unfold ThreadFunc_round.
  rewrite (GetConnection_growth p h threadId Hfree Hc), Hstoi.
  unfold FreeConnection, move_from. simpl.
  rewrite (to_size_t_pred _ Hf Hfree).
  replace (free_ p - 1 + 1) with (free_ p) by lia.
  rewrite (to_size_t_small _ Hf).
  apply vec_size_nil_iff in Hc.
  rewrite (to_size_t_small (connectionsAlive_ p + 1)) by (unfold is_size_t in *; lia).
  reflexivity.
Qed.

Lemma ThreadFunc_loop_reuse messages p h threadId :
  is_size_t (free_ p) -> 0 < free_ p ->
  connections_ p <> [] -> vec_back (connections_ p) <> nullptr ->
  ThreadFunc_loop messages p h threadId = RoundDone p h.
Proof.
  intros Hsz Hfree Hne Hback. induction messages as [|msg rest IH]; simpl; [reflexivity |].
  rewrite (ThreadFunc_round_reuse p h threadId Hsz Hfree Hne Hback). exact IH.
Qed.

Lemma vec_back_elem_of l : l <> [] -> vec_back l ∈ l.
Proof.
  intros Hne. rewrite (vec_nonempty_push l Hne) at 2. unfold vec_push_back.
  apply elem_of_app. right. apply list_elem_of_singleton. reflexivity.
Qed.

Lemma ThreadFunc_round_null p h threadId :
  0 < free_ p -> connections_ p <> [] -> vec_back (connections_ p) = nullptr ->
  ThreadFunc_round p h threadId = AssertFailed 135.
Proof.
  intros Hfree Hne Hback. unfold ThreadFunc_round.
  rewrite (GetConnection_reuse p h threadId Hfree Hne), Hback. reflexivity.
Qed.

(** X2: a thread that runs [ThreadFunc] with no other thread around, on a
    pool whose counters are consistent, for at least one message.  With a
    free slot and a non-null handle at the back of the idle cache, every
    round takes that connection and gives it back: the pool and the
    objects end as they started and the thread id is never parsed.  With a
    free slot and a null handle at the back of the cache, [assert(connection)]
    of l.135 fails in the first round.  With a free slot and an empty
    cache, the first round creates one connection from [stoi(threadId)]
    and all later rounds reuse it, so exactly one object is made for all
    the messages; when [stoi] throws, the exception leaves [ThreadFunc] in
    the first round.  With no free slot the thread waits.  So
    [assert(!connection)] of l.142 never fails, and [assert(connection)]
    fails only for a null handle at the back of the cache, which a pool
    used correctly since its construction never has. *)
Theorem ThreadFunc_alone p h threadId messages :
  bounded p -> messages <> [] ->
  (0 < free_ p -> connections_ p <> [] -> vec_back (connections_ p) <> nullptr ->
   ThreadFunc_loop messages p h threadId = RoundDone p h)
  /\ (0 < free_ p -> connections_ p <> [] -> vec_back (connections_ p) = nullptr ->
      ThreadFunc_loop messages p h threadId = AssertFailed 135)
  /\ (forall i, 0 < free_ p -> connections_ p = [] -> stoi threadId = inr i ->
        ThreadFunc_loop messages p h threadId
        = RoundDone {| connections_ := [Some (length h)];
                       connectionsAlive_ := connectionsAlive_ p + 1;
                       free_ := free_ p; poolSize_ := poolSize_ p |}
                    (h ++ [{| id := i |}]))
  /\ (forall e, 0 < free_ p -> connections_ p = [] -> stoi threadId = inl e ->
        ThreadFunc_loop messages p h threadId = Uncaught e)
  /\ (free_ p = 0 -> ThreadFunc_loop messages p h threadId = Waiting)
  /\ (forall line, ThreadFunc_loop messages p h threadId = AssertFailed line ->
        line = 135 /\ 0 < free_ p /\ connections_ p <> []
        /\ vec_back (connections_ p) = nullptr)
  /\ (forall poolSize cs,
        well_used cs (boot poolSize) = true -> p = pool (run cs (boot poolSize)) ->
        connections_ p <> [] -> vec_back (connections_ p) <> nullptr).
Proof.
  intros Hb Hm. destruct messages as [|msg rest]; [contradiction |].
  pose proof Hb as [Hp Hf Ha Hs].
  assert (0 < free_ p -> connections_ p <> [] -> vec_back (connections_ p) <> nullptr ->
          ThreadFunc_loop (msg :: rest) p h threadId = RoundDone p h) as Reuse.
  { intros Hfree Hne Hback. apply ThreadFunc_loop_reuse; assumption. }
  assert (0 < free_ p -> connections_ p <> [] -> vec_back (connections_ p) = nullptr ->
          ThreadFunc_loop (msg :: rest) p h threadId = AssertFailed 135) as Null.
  { intros Hfree Hne Hback. simpl.
    rewrite (ThreadFunc_round_null p h threadId Hfree Hne Hback). reflexivity. }
  assert (forall i, 0 < free_ p -> connections_ p = [] -> stoi threadId = inr i ->
          ThreadFunc_loop (msg :: rest) p h threadId
          = RoundDone {| connections_ := [Some (length h)];
                         connectionsAlive_ := connectionsAlive_ p + 1;
                         free_ := free_ p; poolSize_ := poolSize_ p |}
                      (h ++ [{| id := i |}])) as Growth.
  { intros i Hfree Hc Hstoi. simpl.
    rewrite (ThreadFunc_round_growth p h threadId i Hb Hfree Hc Hstoi).
    apply ThreadFunc_loop_reuse; simpl; try assumption; discriminate. }
  assert (forall e, 0 < free_ p -> connections_ p = [] -> stoi threadId = inl e ->
          ThreadFunc_loop (msg :: rest) p h threadId = Uncaught e) as Throw.
  { intros e Hfree Hc Hstoi. simpl. unfold ThreadFunc_round.
    rewrite (GetConnection_growth p h threadId Hfree Hc), Hstoi. reflexivity. }
  assert (free_ p = 0 -> ThreadFunc_loop (msg :: rest) p h threadId = Waiting) as Wait.
  { intros Hz. simpl. unfold ThreadFunc_round.
    rewrite (GetConnection_blocked p h threadId) by lia. reflexivity. }
  split; [exact Reuse |]. split; [exact Null |]. split; [exact Growth |].
  split; [exact Throw |]. split; [exact Wait |]. split.
  - intros line Hline.
    destruct (decide (free_ p = 0)) as [Hz | Hnz]; [rewrite (Wait Hz) in Hline; discriminate |].
    assert (0 < free_ p) as Hfree by (unfold is_size_t in Hf; lia).
    destruct (connections_ p) as [|c0 l0] eqn:Hc.
    + destruct (stoi threadId) as [e | i] eqn:Hstoi.
      * rewrite (Throw e Hfree eq_refl eq_refl) in Hline. discriminate.
      * rewrite (Growth i Hfree eq_refl eq_refl) in Hline. discriminate.
    + assert (c0 :: l0 <> []) as Hne by discriminate.
      destruct (vec_back (c0 :: l0)) as [a|] eqn:Hback.
      * rewrite (Reuse Hfree Hne) in Hline by discriminate. discriminate.
      * rewrite (Null Hfree Hne eq_refl) in Hline. simplify_eq. auto.
  - intros poolSize cs Hu -> Hne Hback.
    pose proof (run_owned_once cs _ Hu (boot_owned_once poolSize)) as Hown.
    unfold owned_once, owners in Hown.
    assert (nullptr ∈ created (heap (run cs (boot poolSize)))) as Hbad.
    { rewrite <- Hown, <- Hback. apply elem_of_app. left. apply vec_back_elem_of, Hne. }
    apply elem_of_created in Hbad as (a & Hnull & _). discriminate Hnull.
Qed.

Lemma ThreadFunc_alone_witness :
  ThreadFunc (pool (boot 5)) [] "0x16d713000"
  = RoundDone {| connections_ := [Some 0%nat]; connectionsAlive_ := 1;
                 free_ := 5; poolSize_ := 5 |}
              [{| id := 0 |}].
Proof.
  apply (ThreadFunc_alone (pool (boot 5)) [] "0x16d713000" messagesToSendThroughConnections
           (boot_bounded 5)).
  - discriminate.
  - reflexivity.
  - reflexivity.
  - reflexivity.
Defined.

(** ** The counters, with failed creations counted *)

Lemma exec_slots_exact c w :
  permitted c w = true -> bounded (pool w) ->
  free_ (pool w) + Z.of_nat (length (held w)) <= poolSize_ (pool w) ->
  free_ (pool (exec c w)) + Z.of_nat (length (held (exec c w)))
    + (if throws c w then 1 else 0)
  = free_ (pool w) + Z.of_nat (length (held w)).
Proof.
  intros Hperm [Hp Hf Ha Hs] Hsl.
  destruct c as [who threadId | who connection | | |]; simpl; try lia.
  - get_cases (pool w) (heap w) threadId; rewrite Eget.
    + pose proof (to_size_t_pred _ Hf Hfree) as Hd.
      destruct (stoi threadId); simpl; rewrite Hd; lia.
    + pose proof (to_size_t_pred _ Hf Hfree) as Hd. simpl. rewrite Hd. lia.
    + simpl. lia.
  - simpl in Hperm. apply bool_decide_eq_true in Hperm.
    pose proof (let_go_length _ _ Hperm) as Hl.
    rewrite to_size_t_succ; [lia | assumption |].
    unfold is_size_t, SIZE_MAX in *. lia.
Qed.

Lemma run_slots_exact cs w :
  well_used cs w = true -> bounded (pool w) ->
  free_ (pool w) + Z.of_nat (length (held w)) <= poolSize_ (pool w) ->
  free_ (pool (run cs w)) + Z.of_nat (length (held (run cs w))) + Z.of_nat (failures cs w)
  = free_ (pool w) + Z.of_nat (length (held w)).
Proof.
  revert w. induction cs as [|c cs IH]; intros w Hu Hb Hsl; [simpl; lia |].
  rewrite run_cons.
  change (well_used (c :: cs) w) with (permitted c w && well_used cs (exec c w)) in Hu.
  apply andb_true_iff in Hu as [Hp Hu].
  pose proof (exec_slots_exact c w Hp Hb Hsl) as H1.
  destruct (exec_alive_mono c w Hb) as [_ Hps].
  assert (free_ (pool (exec c w)) + Z.of_nat (length (held (exec c w)))
          <= poolSize_ (pool (exec c w))) as Hsl'.
  { rewrite Hps. destruct (throws c w); lia. }
  pose proof (IH (exec c w) Hu (exec_bounded c w Hb) Hsl') as H2.
  simpl failures. destruct (throws c w); lia.
Qed.

(** X3: what the counters count, between calls and under correct usage,
    however many creations failed.  The slots are all accounted for: free,
    behind a handle that is out, or lost to a failed creation.  So
    [ConnectionsInUse()] is the number of handles out plus the number of
    failed creations, [ConnectionsAlive()] is the number of connections
    idle plus the number out, which is the number of objects made, and the
    assertion [connectionsInUse <= connectionsAlive] of [main] (l.166)
    holds exactly when the failed creations do not outnumber the idle
    connections. *)
Theorem counters_accounted poolSize cs :
  well_used cs (boot poolSize) = true ->
  let w := run cs (boot poolSize) in
  let lost := Z.of_nat (failures cs (boot poolSize)) in
  let out := Z.of_nat (length (held w)) in
  let idle := vec_size (connections_ (pool w)) in
  free_ (pool w) + out + lost = PoolSize (pool w)
  /\ ConnectionsInUse (pool w) = out + lost
  /\ ConnectionsAlive (pool w) = idle + out
  /\ ConnectionsAlive (pool w) = Z.of_nat (length (heap w))
  /\ (ConnectionsInUse (pool w) <= ConnectionsAlive (pool w) <-> lost <= idle).
Proof.
  intros Hu w lost out idle.
  pose proof (run_bounded cs _ (boot_bounded poolSize)) as [Hp Hf Ha Hs].
  pose proof (run_accounted cs _ Hu (boot_bounded poolSize) (boot_accounted poolSize))
    as [Hc _].
  pose proof (run_owned_once cs _ Hu (boot_owned_once poolSize)) as Hown.
  pose proof (boot_accounted poolSize) as [_ Hsl0].
  pose proof (run_slots_exact cs _ Hu (boot_bounded poolSize) Hsl0) as Hex.
  destruct (run_alive_mono cs _ (boot_bounded poolSize)) as [_ Hps].
  fold w in Hp, Hf, Ha, Hs, Hc, Hown, Hex, Hps. fold lost out in Hex.
  apply Permutation_length in Hown.
  unfold owners, created in Hown. rewrite length_app, !length_fmap, length_seq in Hown.
  simpl in Hex. unfold PoolSize, ConnectionsInUse, ConnectionsAlive.
  assert (free_ (pool w) + out + lost = poolSize_ (pool w)) as Hall.
  { rewrite Hps. simpl. lia. }
  assert (to_size_t (poolSize_ (pool w) - free_ (pool w)) = out + lost) as Hin.
  { rewrite to_size_t_small; [lia |]. unfold is_size_t in *. lia. }
  assert (connectionsAlive_ (pool w) = idle + out) as Hal.
  { subst idle out. unfold vec_size. lia. }
  rewrite Hin. repeat split; try assumption; lia.
Qed.

Lemma counters_accounted_witness :
  let cs := [CallGetConnection 0 "1"; CallGetConnection 1 "abc";
             CallFreeConnection 0 (Some 0%nat); CallGetConnection 2 "abc";
             CallGetConnection 3 "abc"] in
  well_used cs (boot 3) = true
  /\ failures cs (boot 3) = 2%nat
  /\ ConnectionsInUse (pool (run cs (boot 3))) = 1 + 2.
Proof.
  split; [reflexivity |]. split; [reflexivity |].
  apply (counters_accounted 3
           [CallGetConnection 0 "1"; CallGetConnection 1 "abc";
            CallFreeConnection 0 (Some 0%nat); CallGetConnection 2 "abc";
            CallGetConnection 3 "abc"]).
  reflexivity.
Defined.

(** X4: under correct usage a call of [GetConnection] stays blocked
    exactly when every slot is either behind a handle that is out or lost
    to a failed creation; with no failed creation, exactly when
    [PoolSize()] connections are out. *)
Theorem blocks_exactly_when_exhausted poolSize cs threadId :
  well_used cs (boot poolSize) = true ->
  let w := run cs (boot poolSize) in
  (GetConnection (pool w) (heap w) threadId).1.1 = Blocked
  <-> Z.of_nat (length (held w)) + Z.of_nat (failures cs (boot poolSize)) = PoolSize (pool w).
Proof.
  intros Hu w.
  pose proof (run_bounded cs _ (boot_bounded poolSize)) as [Hp Hf Ha Hs].
  pose proof (boot_accounted poolSize) as [_ Hsl0].
  pose proof (run_slots_exact cs _ Hu (boot_bounded poolSize) Hsl0) as Hex.
  destruct (run_alive_mono cs _ (boot_bounded poolSize)) as [_ Hps].
  fold w in Hp, Hf, Ha, Hs, Hex, Hps. simpl in Hex. unfold PoolSize. rewrite Hps. simpl.
  get_cases (pool w) (heap w) threadId; rewrite Eget.
  - destruct (stoi threadId); simpl; split; intros H; try discriminate; lia.
  - simpl. split; intros H; try discriminate; lia.
  - simpl. unfold is_size_t in Hf. split; intros H; [lia | reflexivity].
Qed.

Lemma blocks_exactly_when_exhausted_witness :
  let cs := [CallGetConnection 0 "1"; CallGetConnection 1 "abc"] in
  well_used cs (boot 2) = true
  /\ (GetConnection (pool (run cs (boot 2))) (heap (run cs (boot 2))) "7").1.1 = Blocked.
Proof.
  split; [reflexivity |].
  apply (blocks_exactly_when_exhausted 2
           [CallGetConnection 0 "1"; CallGetConnection 1 "abc"] "7");
    reflexivity.
Defined.

(** ** The mutex *)

(** X5: in every state a schedule reaches, at most one thread stands at
    a statement between taking and releasing [mt_], and [mt_] is owned
    exactly when some thread stands there, by that thread: the bookkeeping
    of [GetConnection] and [FreeConnection] is never interleaved, and a
    thread asleep in [cv_.wait] does not hold the mutex. *)
Theorem mutual_exclusion poolSize n es m :
  play es (start poolSize n) = Some m ->
  (forall t1 t2 th1 th2,
     threads m !! t1 = Some th1 -> threads m !! t2 = Some th2 ->
     critical (at_ th1) = true -> critical (at_ th2) = true -> t1 = t2)
  /\ (forall t, mt_ m = Some t <->
                exists th, threads m !! t = Some th /\ critical (at_ th) = true)
  /\ (forall t th, threads m !! t = Some th -> asleep th = true -> mt_ m <> Some t).
Proof.
  intros Hp.
  pose proof (play_sane es _ m Hp (start_sane poolSize n)) as ([[Hh Hheld] _] & _ & _).
  split; [| split].
  - intros t1 t2 th1 th2 H1 H2 C1 C2.
    pose proof (Hh t1 th1 H1 C1). pose proof (Hh t2 th2 H2 C2). congruence.
  - intros t. split; [apply Hheld |]. intros (th & Hl & Hc). eapply Hh; eassumption.
  - intros t th Hl Ha Hm. destruct (Hheld t Hm) as (th0 & Hl0 & Hc0).
    assert (th0 = th) as -> by congruence.
    destruct (wake_asleep th Ha) as (Hn & _). congruence.
Qed.

Lemma mutual_exclusion_witness :
  let m := {| shared := {| connections_ := []; connectionsAlive_ := 0;
                           free_ := 4; poolSize_ := 5 |};
              objects := []; mt_ := Some 0%nat;
              threads := [ {| at_ := GetTest "1"; handles := []; seen := []; caught := [] |};
                           {| at_ := GetLock "2"; handles := []; seen := []; caught := [] |} ] |} in
  play [BeginGet 0 "1"; Statement 0 0; BeginGet 1 "2"; Statement 0 0; Statement 0 0]
       (start 5 2) = Some m
  /\ step (Statement 1 0) m = None
  /\ (mt_ m = Some 0%nat <->
      exists th, threads m !! 0%nat = Some th /\ critical (at_ th) = true).
Proof.
  split; [reflexivity |]. split; [reflexivity |].
  apply (mutual_exclusion 5 2
           [BeginGet 0 "1"; Statement 0 0; BeginGet 1 "2"; Statement 0 0; Statement 0 0]
           {| shared := {| connections_ := []; connectionsAlive_ := 0;
                           free_ := 4; poolSize_ := 5 |};
              objects := []; mt_ := Some 0%nat;
              threads := [ {| at_ := GetTest "1"; handles := []; seen := []; caught := [] |};
                           {| at_ := GetLock "2"; handles := []; seen := [];
                              caught := [] |} ] |}).
  reflexivity.
Defined.

Lemma statement_critical t th p h mt :
  critical (at_ th) = true -> exists r, statement t th p h mt = Some r.
Proof.
  unfold statement. destruct (at_ th); try discriminate; intros _; simpl;
    repeat match goal with
           | |- context [match ?x with _ => _ end] => destruct x
           end; eauto.
Qed.

Lemma existsb_asleep_lookup ths :
  existsb asleep ths = true -> exists w th, ths !! w = Some th /\ asleep th = true.
Proof.
  induction ths as [|a ths IH]; simpl; [discriminate |].
  destruct (asleep a) eqn:Ea; simpl.
  - intros _. exists 0%nat, a. split; [reflexivity | exact Ea].
  - intros H. destruct (IH H) as (w & th & Hl & Ha). exists (S w), th. split; assumption.
Qed.

Lemma lookup_asleep_existsb ths w th :
  ths !! w = Some th -> asleep th = true -> existsb asleep ths = true.
Proof.
  revert w. induction ths as [|a ths IH]; intros [|w] Hl Ha; simpl in *; try discriminate.
  - simplify_eq. rewrite Ha. reflexivity.
  - rewrite (IH w Hl Ha). apply orb_true_r.
Qed.

(** ** No wake-up is lost *)

Lemma tally_nonneg f ths : 0 <= tally f ths.
Proof. induction ths as [|a ths IH]; simpl; [lia | destruct (f a); lia]. Qed.

Lemma tally_insert f ths t th th' :
  ths !! t = Some th ->
  tally f (<[t := th']> ths)
  = tally f ths - (if f th then 1 else 0) + (if f th' then 1 else 0).
Proof.
  revert t. induction ths as [|a ths IH]; intros [|t] Hl; simpl in *; try discriminate.
  - simplify_eq. lia.
  - rewrite (IH t Hl). lia.
Qed.

Lemma existsb_asleep_insert_inv ths t th th' :
  ths !! t = Some th -> existsb asleep (<[t := th']> ths) = true ->
  asleep th' = true \/ existsb asleep ths = true.
Proof.
  intros Hl He. destruct (existsb_asleep_lookup _ He) as (w & thw & Hw & Ha).
  destruct (decide (w = t)) as [-> | Hne].
  - rewrite list_lookup_insert_eq in Hw by (eapply lookup_lt_Some, Hl).
    simplify_eq. left. exact Ha.
  - rewrite list_lookup_insert_ne in Hw by congruence.
    right. eapply lookup_asleep_existsb; eassumption.
Qed.

(** An event either puts its thread to sleep, with no slot free, or
    keeps the free slots balanced against the wake-ups. *)
Lemma action_wake_balance e th p h mt th' p' h' mt' nfy :
  action e th p h mt = Some (th', p', h', mt', nfy) ->
  is_size_t (free_ p) -> (critical (at_ th) = true -> known (at_ th) p) ->
  (asleep th' = true /\ free_ p' <= 0)
  \/ (asleep th' = false
      /\ free_ p' + (if woken th then 1 else 0) + owed_here th
         <= free_ p + (if woken th' then 1 else 0) + owed_here th'
            + (if nfy then 1 else 0)).
Proof.
  intros H Hsz Hk. unfold owed_here, woken, asleep.
  action_cases H; bool_facts; wrap_facts; unfold is_size_t in *;
    try (left; split; [reflexivity | lia]);
    right; (split; [reflexivity |]); lia.
Qed.

Lemma step_inversion_notify e m m' :
  step e m = Some m' ->
  exists th th' nfy,
    threads m !! actor e = Some th
    /\ action e th (shared m) (objects m) (mt_ m)
       = Some (th', shared m', objects m', mt_ m', nfy)
    /\ ((threads m' = <[actor e := th']> (threads m)
         /\ (nfy = true -> existsb asleep (<[actor e := th']> (threads m)) = false))
        \/ (nfy = true
            /\ exists w thw,
                 <[actor e := th']> (threads m) !! w = Some thw /\ asleep thw = true
                 /\ threads m' = <[w := wake thw]> (<[actor e := th']> (threads m)))).
Proof.
  unfold step. intros H.
  destruct (threads m !! actor e) as [th|] eqn:Hl; [| discriminate].
  destruct (action e th (shared m) (objects m) (mt_ m)) as [[[[[th' p'] h'] mt'] nfy]|] eqn:Ha;
    [| discriminate].
  destruct nfy.
  - unfold notify_one in H.
    destruct (existsb asleep (<[actor e:=th']> (threads m))) eqn:He.
    + destruct (<[actor e:=th']> (threads m) !! designated e) as [thw|] eqn:Hw;
        [| discriminate].
      destruct (asleep thw) eqn:Hs; [| discriminate].
      simplify_eq. exists th, th', true. simpl.
      split; [reflexivity |]. split; [exact Ha |]. right. split; [reflexivity |].
      exists (designated e), thw. split; [exact Hw |]. split; [exact Hs | reflexivity].
    + simplify_eq. exists th, th', true. simpl.
      split; [reflexivity |]. split; [exact Ha |]. left. split; [reflexivity | intros _; exact He].
  - simplify_eq. exists th, th', false. simpl.
    split; [reflexivity |]. split; [exact Ha |]. left. split; [reflexivity | discriminate].
Qed.

Lemma step_wakes_matched e m m' :
  step e m = Some m' -> sane m -> wakes_matched m -> wakes_matched m'.
Proof.
  intros Hstep [Hexcl Hnum] Hinv.
  destruct (step_inversion_notify e m m' Hstep) as (th & th' & nfy & Hl & Ha & Hths).
  pose proof (action_lawful _ _ _ _ _ _ _ _ _ _ Ha) as Hlaw.
  pose proof (update_exclusive m (actor e) th th' (shared m') (objects m') (mt_ m')
                Hexcl Hl Hlaw) as Hexcl1.
  pose proof (update_focus m (actor e) th th' (shared m') (objects m') (mt_ m')
                Hexcl Hl Hlaw) as Hfocus1.
  set (ths1 := <[actor e := th']> (threads m)) in *.
  set (m1 := MkMachine (shared m') (objects m') (mt_ m') ths1) in *.
  (* the holder's debt moves with the thread *)
  assert (wake_owed (focus m1) - owed_here th' = wake_owed (focus m) - owed_here th) as Hshift.
  { rewrite Hfocus1. unfold owed_here, lawful in *.
    destruct (critical (at_ th)) eqn:Ec, (critical (at_ th')) eqn:Ec'.
    - rewrite (focus_holder m (actor e) th Hexcl Hl Ec). lia.
    - rewrite (focus_holder m (actor e) th Hexcl Hl Ec). simpl. lia.
    - rewrite (focus_free m (proj1 Hlaw)). simpl. lia.
    - lia. }
  assert (critical (at_ th) = true -> known (at_ th) (shared m)) as Hk.
  { intros Ec. rewrite (focus_holder m (actor e) th Hexcl Hl Ec) in Hnum.
    apply (numeric_known _ _ Hnum). }
  pose proof (action_wake_balance _ _ _ _ _ _ _ _ _ _ Ha (numeric_free _ _ Hnum) Hk) as Hbal.
  pose proof (tally_insert woken (threads m) (actor e) th th' Hl) as Htally.
  fold ths1 in Htally.
  pose proof (tally_nonneg woken ths1) as Hnn.
  assert (0 <= wake_owed (focus m1)) as Hnn1 by (destruct (focus m1); simpl; lia).
  assert (focus m' = focus m1 /\
          (existsb asleep (threads m') = true ->
           free_ (shared m') <= tally woken (threads m') + wake_owed (focus m1)))
    as [Hf' Hgoal].
  2:{ unfold wakes_matched. rewrite Hf'. exact Hgoal. }
  destruct Hths as [[Hsame Hnone] | (Hn & w & thw & Hw & Hs & Hwoke)].
  - split.
    { destruct m' as [p' h' mt' ths']. simpl in *. subst ths'. reflexivity. }
    rewrite Hsame. fold ths1. intros He.
    destruct Hbal as [[_ Hz] | [Hna Hle]]; [lia |].
    destruct (existsb_asleep_insert_inv _ _ _ _ Hl He) as [Hbad | Hold]; [congruence |].
    specialize (Hinv Hold).
    destruct nfy; [specialize (Hnone eq_refl); congruence |]. lia.
  - split.
    { destruct m' as [p' h' mt' ths']. simpl in *. subst ths'.
      apply roused_focus; [apply roused_insert; assumption | exact Hexcl1]. }
    intros _. rewrite Hwoke.
    rewrite (tally_insert woken ths1 w thw (wake thw) Hw).
    assert (woken thw = false /\ woken (wake thw) = true) as [Hw1 Hw2].
    { unfold woken, wake, asleep in *. destruct (at_ thw); try discriminate. split; reflexivity. }
    rewrite Hw1, Hw2.
    destruct Hbal as [[_ Hz] | [Hna Hle]]; [lia |].
    assert (existsb asleep ths1 = true) as He by (eapply lookup_asleep_existsb; eassumption).
    destruct (existsb_asleep_insert_inv _ _ _ _ Hl He) as [Hbad | Hold]; [congruence |].
    specialize (Hinv Hold). subst nfy. lia.
Qed.

Lemma start_wakes_matched poolSize n : wakes_matched (start poolSize n).
Proof.
  unfold wakes_matched. simpl. intros He.
  destruct (existsb_asleep_lookup _ He) as (w & th & Hl & Ha).
  apply lookup_replicate in Hl as [-> _]. discriminate.
Qed.

Lemma play_wakes_matched es m m' :
  play es m = Some m' -> sane m -> wakes_matched m -> wakes_matched m'.
Proof.
  revert m. induction es as [|e es IH]; intros m Hp Hs Hw; simpl in Hp.
  - simplify_eq. exact Hw.
  - destruct (step e m) as [m1|] eqn:E; [| discriminate].
    apply (IH m1 Hp).
    + apply (step_sane e m m1 E Hs).
    + apply (step_wakes_matched e m m1 E Hs Hw).
Qed.

(** X7: no wake-up is lost.  In every state a schedule reaches where
    [mt_] is free and some thread sleeps in [cv_.wait], every free slot is
    matched by a thread that has been woken and is on its way to take the
    mutex; so threads sleep with nobody woken only while [free_] is 0. *)
Theorem no_lost_wakeup poolSize n es m :
  play es (start poolSize n) = Some m ->
  mt_ m = None ->
  existsb asleep (threads m) = true ->
  free_ (shared m) <= tally woken (threads m)
  /\ (tally woken (threads m) = 0 -> free_ (shared m) = 0).
Proof.
  intros Hp Hm He.
  pose proof (play_sane es _ m Hp (start_sane poolSize n)) as ([_ Hnum] & _ & _).
  pose proof (play_wakes_matched es _ m Hp (start_sane poolSize n)
                (start_wakes_matched poolSize n) He) as Hinv.
  rewrite (focus_free m Hm) in Hinv. simpl in Hinv.
  split; [lia |]. intros Hz.
  pose proof (numeric_free _ _ Hnum) as [H0 _]. lia.
Qed.

Lemma no_lost_wakeup_witness :
  play ([BeginGet 0 "1"] ++ replicate 7 (Statement 0 0)
        ++ [BeginGet 1 "2"; Statement 1 0; Statement 1 0]) (start 1 2) = Some one_waiting
  /\ free_ (shared one_waiting) <= tally woken (threads one_waiting).
Proof.
  split; [reflexivity |].
  apply (no_lost_wakeup 1 2
           ([BeginGet 0 "1"] ++ replicate 7 (Statement 0 0)
            ++ [BeginGet 1 "2"; Statement 1 0; Statement 1 0]) one_waiting);
    reflexivity.
Defined.

(** ** A release hands the connection over *)

Lemma play_app es1 es2 m :
  play (es1 ++ es2) m = match play es1 m with Some m1 => play es2 m1 | None => None end.
Proof.
  revert m. induction es1 as [|e es1 IH]; intros m; simpl; [reflexivity |].
  destruct (step e m); [apply IH | reflexivity].
Qed.

(** X8: a thread releases a connection while another sleeps in
    [GetConnection], and designates it.  When the two run undisturbed, the
    sleeper is woken, takes the mutex, finds the slot and is returned the
    very connection just released, whatever its own thread id; the pool
    ends exactly as it was before the release (same free slots, same idle
    cache, no connection created) and [mt_] is free. *)
Theorem release_hands_over m t w th thw connection threadId :
  threads m !! t = Some th -> at_ th = Idle ->
  threads m !! w = Some thw -> at_ thw = GetAsleep threadId ->
  mt_ m = None ->
  is_size_t (free_ (shared m)) -> free_ (shared m) < SIZE_MAX ->
  play ((BeginFree t connection :: replicate 5 (Statement t w))
        ++ replicate 7 (Statement w w)) m
  = Some (MkMachine (shared m) (objects m) None
            (<[w := MkThread Idle (connection :: handles thw) (seen thw) (caught thw)]>
               (<[t := MkThread Idle (let_go connection (handles th)) (seen th) (caught th)]>
                  (threads m)))).
Proof.
  intros Hl Hat Hw Haw Hmt Hsz Hmax.
  assert (asleep thw = true) as Hs by (unfold asleep; rewrite Haw; reflexivity).
  assert (t <> w) as Hne by (intros ->; congruence).
  assert (notify_one w (threads m) = Some (<[w := wake thw]> (threads m))) as Hn.
  { unfold notify_one. rewrite (lookup_asleep_existsb _ _ _ Hw Hs), Hw, Hs. reflexivity. }
  rewrite play_app, (FreeConnection_run m t w th connection _ Hl Hat Hmt Hn).
  assert (w < length (<[t := MkThread Idle (let_go connection (handles th)) (seen th)
                                 (caught th)]> (threads m)))%nat as Hlt.
  { rewrite length_insert. eapply lookup_lt_Some, Hw. }
  rewrite (list_insert_insert_ne (threads m) t w) by exact Hne.
  unfold wake. rewrite Haw.
  destruct m as [p h mt ths]. destruct p as [cs alive free size].
  destruct thw as [c hs sn cg]. simpl in Hw, Haw, Hsz, Hmax, Hlt. subst c.
  unfold FreeConnection, move_from, shared, objects, threads, handles, seen, caught, goto.
  simpl fst. simpl snd. simpl connections_. simpl free_.
  unfold set_free, set_connections. simpl connections_. simpl free_.
  simpl connectionsAlive_. simpl poolSize_.
  assert (to_size_t (free + 1) = free + 1) as Hsucc by (apply to_size_t_succ; assumption).
  assert ((0 <? free + 1) = true) as Hpos by (apply Z.ltb_lt; unfold is_size_t in Hsz; lia).
  assert ((vec_size (vec_push_back cs connection) =? 0) = false) as Hsize.
  { apply Z.eqb_neq. rewrite vec_size_push. pose proof (vec_size_nonneg cs). lia. }
  rewrite Hsucc. simpl replicate.
  run_statement Hlt idtac. run_statement Hlt ltac:(rewrite Hpos).
  run_statement Hlt idtac. run_statement Hlt ltac:(rewrite Hsize).
  run_statement Hlt idtac. run_statement Hlt idtac. run_statement Hlt idtac.
  simpl play. unfold set_free, set_connections. simpl.
  rewrite vec_back_push, vec_pop_push.
  replace (free + 1 - 1) with free by lia.
  rewrite (to_size_t_small _ Hsz). reflexivity.
Qed.

Lemma release_hands_over_witness :
  play ((BeginFree 0 (Some 0%nat) :: replicate 5 (Statement 0 1))
        ++ replicate 7 (Statement 1 1)) one_waiting
  = Some {| shared := {| connections_ := []; connectionsAlive_ := 1;
                         free_ := 0; poolSize_ := 1 |};
            objects := [{| id := 1 |}];
            mt_ := None;
            threads := [ {| at_ := Idle; handles := []; seen := []; caught := [] |};
                         {| at_ := Idle; handles := [Some 0%nat]; seen := []; caught := [] |} ] |}.
Proof.
  apply (release_hands_over one_waiting 0 1
           {| at_ := Idle; handles := [Some 0%nat]; seen := []; caught := [] |}
           {| at_ := GetAsleep "2"; handles := []; seen := []; caught := [] |}
           (Some 0%nat) "2").
  - reflexivity.
  - reflexivity.
  - reflexivity.
  - reflexivity.
  - reflexivity.
  - unfold is_size_t. simpl. split; [lia | reflexivity].
  - reflexivity.
Defined.

Lemma GetConnection_run_witness :
  play (BeginGet 0 "abc" :: replicate 5 (Statement 0 0)) (start 5 1)
  = Some {| shared := {| connections_ := []; connectionsAlive_ := 0;
                         free_ := 4; poolSize_ := 5 |};
            objects := []; mt_ := None;
            threads := [ {| at_ := Idle; handles := []; seen := [];
                            caught := [invalid_argument] |} ] |}.
Proof.
  exact (GetConnection_run (start 5 1) 0 0
           {| at_ := Idle; handles := []; seen := []; caught := [] |} "abc"
           eq_refl eq_refl eq_refl).
Defined.

(** ** Never more objects than the capacity *)

(** What the holder of [mt_] carries moves with the thread: for every
    quantity [f] attached to the statements that is 0 outside the locked
    regions. *)
Lemma focus_shift (f : pc -> Z) m t th th' p' h' mt' :
  f Idle = 0 ->
  exclusive m -> threads m !! t = Some th -> lawful t th th' (mt_ m) mt' ->
  f (focus (MkMachine p' h' mt' (<[t := th']> (threads m))))
    - (if critical (at_ th') then f (at_ th') else 0)
  = f (focus m) - (if critical (at_ th) then f (at_ th) else 0).
Proof.
  intros Hf Hexcl Hl Hlaw.
  rewrite (update_focus m t th th' p' h' mt' Hexcl Hl Hlaw).
  unfold lawful in Hlaw.
  destruct (critical (at_ th)) eqn:Ec, (critical (at_ th')) eqn:Ec'.
  - rewrite (focus_holder m t th Hexcl Hl Ec). lia.
  - rewrite (focus_holder m t th Hexcl Hl Ec), Hf. lia.
  - rewrite (focus_free m (proj1 Hlaw)), Hf. lia.
  - lia.
Qed.

Lemma action_tallied e th p h mt th' p' h' mt' nfy :
  action e th p h mt = Some (th', p', h', mt', nfy) ->
  (critical (at_ th) = true -> numeric (at_ th) p) ->
  connectionsAlive_ p' + (if critical (at_ th') then made_uncounted (at_ th') else 0)
    - Z.of_nat (length h')
  = connectionsAlive_ p + (if critical (at_ th) then made_uncounted (at_ th) else 0)
    - Z.of_nat (length h).
Proof.
  intros H Hnum. action_cases H; try lia.
  - rewrite length_app. simpl. lia.
  - destruct (Hnum eq_refl) as [Hp Hf Ha Hs Hk]. simpl in Hs, Hk.
    apply vec_size_nil_iff in Hk.
    rewrite to_size_t_small; unfold is_size_t in *; lia.
Qed.

Lemma step_tallied e m m' :
  step e m = Some m' -> sane m -> tallied m -> tallied m'.
Proof.
  intros Hstep [Hexcl Hnum] Hinv. unfold tallied in *.
  destruct (step_inversion e m m' Hstep) as (th & th' & nfy & Hl & Ha & Hr).
  pose proof (action_lawful _ _ _ _ _ _ _ _ _ _ Ha) as Hlaw.
  pose proof (update_exclusive m (actor e) th th' (shared m') (objects m') (mt_ m')
                Hexcl Hl Hlaw) as Hexcl1.
  pose proof (focus_shift made_uncounted m (actor e) th th' (shared m') (objects m') (mt_ m')
                eq_refl Hexcl Hl Hlaw) as Hshift.
  assert (focus m' = focus (MkMachine (shared m') (objects m') (mt_ m')
                              (<[actor e := th']> (threads m)))) as Hfocus'.
  { destruct m' as [p' h' mt' ths']. simpl in *. apply roused_focus; assumption. }
  rewrite Hfocus'.
  assert (critical (at_ th) = true -> numeric (at_ th) (shared m)) as Hk.
  { intros Ec. rewrite <- (focus_holder m (actor e) th Hexcl Hl Ec). exact Hnum. }
  pose proof (action_tallied _ _ _ _ _ _ _ _ _ _ Ha Hk) as Hact. lia.
Qed.

Lemma play_tallied es m m' :
  play es m = Some m' -> sane m -> tallied m -> tallied m'.
Proof.
  revert m. induction es as [|e es IH]; intros m Hp Hs Ht; simpl in Hp.
  - simplify_eq. exact Ht.
  - destruct (step e m) as [m1|] eqn:E; [| discriminate].
    apply (IH m1 Hp).
    + apply (step_sane e m m1 E Hs).
    + apply (step_tallied e m m1 E Hs Ht).
Qed.

Lemma start_tallied poolSize n : tallied (start poolSize n).
Proof. reflexivity. Qed.

(** X13: at every moment, under every interleaving and whatever the
    callers do, the [FakeConnection] objects made are at most
    [PoolSize()]; [ConnectionsAlive()] is their number, except between
    [make_shared] and [++connectionsAlive_], where it is one less. *)
Theorem objects_within_capacity poolSize n es m :
  play es (start poolSize n) = Some m ->
  Z.of_nat (length (objects m)) <= PoolSize (shared m)
  /\ ConnectionsAlive (shared m) + made_uncounted (focus m) = Z.of_nat (length (objects m)).
Proof.
  intros Hp.
  pose proof (play_sane es _ m Hp (start_sane poolSize n)) as ([_ Hnum] & _ & _).
  pose proof (play_tallied es _ m Hp (start_sane poolSize n) (start_tallied poolSize n)) as Ht.
  unfold tallied in Ht. unfold PoolSize, ConnectionsAlive. split; [| exact Ht].
  destruct Hnum as [H1 H2 H3 H4 H5].
  destruct (focus m); simpl in *; try lia.
  apply vec_size_nil_iff in H5. unfold is_size_t in *. lia.
Qed.

Lemma objects_within_capacity_witness :
  let m := {| shared := {| connections_ := []; connectionsAlive_ := 0;
                           free_ := 0; poolSize_ := 1 |};
              objects := [{| id := 1 |}]; mt_ := Some 0%nat;
              threads := [ {| at_ := GetInc (Some 0%nat); handles := []; seen := [];
                              caught := [] |} ] |} in
  play (BeginGet 0 "1" :: replicate 5 (Statement 0 0)) (start 1 1) = Some m
  /\ Z.of_nat (length (objects m)) <= PoolSize (shared m).
Proof.
  split; [reflexivity |].
  apply (objects_within_capacity 1 1 (BeginGet 0 "1" :: replicate 5 (Statement 0 0))).
  reflexivity.
Defined.

(** X14: under correct usage, at every moment and under every
    interleaving, the handles that the threads hold in their variables are
    at most [PoolSize()]: never more connections are checked out than the
    capacity. *)
Theorem checked_out_within_capacity poolSize n es m :
  play es (start poolSize n) = Some m ->
  well_behaved es (start poolSize n) = true ->
  Z.of_nat (length (all_handles (threads m))) <= PoolSize (shared m).
Proof.
  intros Hp Hw.
  pose proof (play_sane es _ m Hp (start_sane poolSize n)) as ([_ Hnum] & _ & _).
  pose proof (play_tallied es _ m Hp (start_sane poolSize n) (start_tallied poolSize n)) as Ht.
  pose proof (play_owned es _ m Hp Hw (start_sane poolSize n) (start_owned poolSize n))
    as [Hown _].
  apply Permutation_length in Hown. unfold placed, created in Hown.
  rewrite !length_app, length_fmap, length_seq in Hown.
  unfold tallied in Ht. unfold PoolSize.
  destruct Hnum as [H1 H2 H3 H4 H5]. unfold vec_size in H4.
  destruct (focus m); simpl in *; lia.
Qed.

Lemma checked_out_within_capacity_witness :
  play handover (start 1 2)
  = Some {| shared := {| connections_ := []; connectionsAlive_ := 1;
                         free_ := 0; poolSize_ := 1 |};
            objects := [{| id := 1 |}];
            mt_ := None;
            threads := [ {| at_ := Idle; handles := []; seen := []; caught := [] |};
                         {| at_ := Idle; handles := [Some 0%nat]; seen := []; caught := [] |} ] |}
  /\ Z.of_nat (length (all_handles
                         [ {| at_ := Idle; handles := []; seen := []; caught := [] |};
                           {| at_ := Idle; handles := [Some 0%nat]; seen := [];
                              caught := [] |} ])) <= 1.
Proof.
  split; [reflexivity |].
  apply (checked_out_within_capacity 1 2 handover
           {| shared := {| connections_ := []; connectionsAlive_ := 1;
                           free_ := 0; poolSize_ := 1 |};
              objects := [{| id := 1 |}];
              mt_ := None;
              threads := [ {| at_ := Idle; handles := []; seen := []; caught := [] |};
                           {| at_ := Idle; handles := [Some 0%nat]; seen := [];
                              caught := [] |} ] |});
    reflexivity.
Defined.

(** ** Other threads while the mutex is held *)

Lemma play_cons_inv e es m m' :
  play (e :: es) m = Some m' -> exists m1, step e m = Some m1 /\ play es m1 = Some m'.
Proof. simpl. destruct (step e m) as [m1|]; [eauto | discriminate]. Qed.

Lemma play_app_inv es1 es2 m m' :
  play (es1 ++ es2) m = Some m' ->
  exists m1, play es1 m = Some m1 /\ play es2 m1 = Some m'.
Proof.
  rewrite play_app. destruct (play es1 m) as [m1|]; [eauto | discriminate].
Qed.

(** While [t] owns [mt_], an event of another thread changes neither the
    pool, nor the objects, nor the owner of the mutex, nor [t] itself. *)
Lemma others_step_locked e m m' t th :
  sane m -> mt_ m = Some t -> threads m !! t = Some th ->
  step e m = Some m' -> actor e <> t ->
  shared m' = shared m /\ objects m' = objects m /\ mt_ m' = Some t
  /\ threads m' !! t = Some th /\ sane m'.
Proof.
  intros Hs Hm Hl Hstep Hne.
  pose proof (step_sane e m m' Hstep Hs) as (Hs' & _ & _).
  destruct Hs as [[Hh Hheld] _].
  destruct (step_inversion_notify e m m' Hstep) as (the & the' & nfy & Hle & Ha & Hths).
  assert (critical (at_ the) = false) as Ec.
  { destruct (critical (at_ the)) eqn:Ec; [| reflexivity].
    pose proof (Hh _ _ Hle Ec). congruence. }
  destruct (action_outside _ _ _ _ _ _ _ _ _ _ Ha Ec) as (Hp & Hhp & Hn & _).
  pose proof (action_lawful _ _ _ _ _ _ _ _ _ _ Ha) as Hlaw.
  unfold lawful in Hlaw. rewrite Ec in Hlaw.
  assert (mt_ m' = mt_ m) as Hmt.
  { destruct (critical (at_ the')); [destruct Hlaw; congruence | exact Hlaw]. }
  destruct Hths as [[Hths _] | [Hn' _]]; [| congruence].
  split; [exact Hp |]. split; [exact Hhp |]. split; [congruence |]. split; [| exact Hs'].
  rewrite Hths. rewrite list_lookup_insert_ne by exact Hne. exact Hl.
Qed.

Lemma others_play_locked es m m' t th :
  sane m -> mt_ m = Some t -> threads m !! t = Some th ->
  Forall (fun e => actor e <> t) es -> play es m = Some m' ->
  shared m' = shared m /\ objects m' = objects m /\ mt_ m' = Some t
  /\ threads m' !! t = Some th /\ sane m'.
Proof.
  revert m. induction es as [|e es IH]; intros m Hs Hm Hl Hall Hp.
  - simpl in Hp. simplify_eq. auto.
  - apply play_cons_inv in Hp as (m1 & Hstep & Hp).
    apply Forall_cons in Hall as [Hne Hall].
    destruct (others_step_locked e m m1 t th Hs Hm Hl Hstep Hne) as (H1 & H2 & H3 & H4 & H5).
    destruct (IH m1 H5 H3 H4 Hall Hp) as (G1 & G2 & G3 & G4 & G5).
    split; [congruence |]. split; [congruence |]. split; [exact G3 |].
    split; [exact G4 | exact G5].
Qed.

Lemma own_statement m m' t w th th' p' h' mt' :
  threads m !! t = Some th ->
  statement t th (shared m) (objects m) (mt_ m) = Some (th', p', h', mt', false) ->
  step (Statement t w) m = Some m' ->
  m' = MkMachine p' h' mt' (<[t := th']> (threads m)).
Proof.
  unfold step. simpl. intros Hl Hs. rewrite Hl, Hs. congruence.
Qed.

(** One statement of the owner of [mt_], then any events of the others. *)
Lemma own_then_others m m' t w es th th' p' h' :
  sane m -> threads m !! t = Some th ->
  statement t th (shared m) (objects m) (mt_ m) = Some (th', p', h', Some t, false) ->
  Forall (fun e => actor e <> t) es ->
  play (Statement t w :: es) m = Some m' ->
  shared m' = p' /\ objects m' = h' /\ mt_ m' = Some t
  /\ threads m' !! t = Some th' /\ sane m'.
Proof.
  intros Hs Hl Hst Hall Hp.
  apply play_cons_inv in Hp as (m1 & Hstep & Hp).
  pose proof (step_sane _ _ _ Hstep Hs) as (Hs1 & _ & _).
  pose proof (own_statement m m1 t w th th' p' h' (Some t) Hl Hst Hstep) as ->.
  assert (<[t := th']> (threads m) !! t = Some th') as Hl1.
  { apply list_lookup_insert_eq. eapply lookup_lt_Some, Hl. }
  exact (others_play_locked es _ m' t th' Hs1 eq_refl Hl1 Hall Hp).
Qed.

(** ** Release, under every interleaving *)

Lemma notify_one_total ths : exists w ths', notify_one w ths = Some ths'.
Proof.
  unfold notify_one. destruct (existsb asleep ths) eqn:He; [| exists 0%nat; eauto].
  destruct (existsb_asleep_lookup _ He) as (w & thw & Hw & Ha).
  exists w. rewrite Hw, Ha. eauto.
Qed.

Lemma FreeConnection_run_locked m t w th connection ths' :
  threads m !! t = Some th -> at_ th = FreeLock connection -> mt_ m = None ->
  notify_one w (threads m) = Some ths' ->
  play (replicate 5 (Statement t w)) m
  = Some (MkMachine (FreeConnection (shared m) connection).1.2 (objects m) None
            (<[t := MkThread Idle (let_go connection (handles th)) (seen th) (caught th)]>
               ths')).
Proof.
  intros Hl Hat Hmt Hn.
  assert (t < length (threads m))%nat as Hlt by (eapply lookup_lt_Some, Hl).
  destruct m as [p h mt ths]. destruct th as [c hs sn cg].
  simpl in Hl, Hat, Hmt, Hlt, Hn. subst c mt.
  unfold shared, objects, threads, handles, seen, caught.
  assert (MkMachine p h None ths
          = MkMachine p h None (<[t := MkThread (FreeLock connection) hs sn cg]> ths)) as Hm.
  { rewrite (list_insert_id ths t _ Hl). reflexivity. }
  pose proof (notify_one_length _ _ _ Hn) as Hlen.
  simpl replicate. rewrite Hm.
  run_statement Hlt idtac. run_statement Hlt idtac. run_statement Hlt idtac.
  erewrite play_notify;
    [| exact Hlt | unfold statement, goto; simpl; reflexivity
     | eapply notify_one_insert; [exact Hl | reflexivity | reflexivity | exact Hn] ].
  erewrite play_statement;
    [| rewrite Hlen; exact Hlt | unfold statement, goto; simpl; reflexivity].
  reflexivity.
Qed.

(** C8, as stated, fails when [free_] is [SIZE_MAX]: on the pool built by
    [ConnectionPool pool(-1)], whose [free_] is [SIZE_MAX], the call
    [FreeConnection(handle)] returns with [free_] at 0, not one higher. *)
Lemma FreeConnection_wraps_at_SIZE_MAX :
  ConnectionPool_ctor (-1) = Returned (pool (boot (-1)))
  /\ free_ (pool (boot (-1))) = SIZE_MAX
  /\ FreeConnection (pool (boot (-1))) nullptr
     = (Returned tt,
        {| connections_ := [nullptr]; connectionsAlive_ := 0; free_ := 0;
           poolSize_ := SIZE_MAX |},
        nullptr)
  /\ play (BeginFree 0 nullptr :: replicate 5 (Statement 0 0)) (start (-1) 1)
     = Some {| shared := {| connections_ := [nullptr]; connectionsAlive_ := 0; free_ := 0;
                            poolSize_ := SIZE_MAX |};
               objects := [];
               mt_ := None;
               threads := [ {| at_ := Idle; handles := []; seen := []; caught := [] |} ] |}
  /\ ~ (forall poolSize connection p' connection',
          FreeConnection (pool (boot poolSize)) connection = (Returned tt, p', connection') ->
          free_ p' = free_ (pool (boot poolSize)) + 1).
Proof.
  split; [reflexivity |]. split; [reflexivity |]. split; [reflexivity |].
  split; [reflexivity |].
  intros H. specialize (H (-1) nullptr _ _ eq_refl). discriminate H.
Qed.

(** C8, amended: every call of [FreeConnection(connection)], taken from
    the moment the caller stands at the lock of l.98 in any state the
    program can reach.  The call takes [mt_] exactly when [mt_] is free,
    and can then execute its five statements in a row: it never waits on
    [cv_].  In every schedule, whatever the other threads do between its
    statements, once it is through the handle is at the back of
    [connections_] and [free_] is one higher in [size_t] arithmetic, that
    is exactly one higher whenever [free_ < SIZE_MAX] and 0 when [free_]
    was [SIZE_MAX]; [connectionsAlive_], [poolSize_] and the objects are
    as they were when it took the lock; [mt_] is free again and the caller
    no longer has the handle.  [notify_one] wakes the one sleeping thread
    the scheduler designates, and no thread when none sleeps. *)
Theorem FreeConnection_every_call poolSize n es0 m t th connection :
  play es0 (start poolSize n) = Some m ->
  threads m !! t = Some th -> at_ th = FreeLock connection ->
  (forall w, mt_ m <> None -> step (Statement t w) m = None)
  /\ (mt_ m = None -> exists w m', play (replicate 5 (Statement t w)) m = Some m')
  /\ (forall w1 w2 w3 w w5 es2 es3 es4 es5 ma mb m',
        Forall (fun e => actor e <> t) (es2 ++ es3 ++ es4 ++ es5) ->
        play (Statement t w1 :: es2 ++ Statement t w2 :: es3 ++ Statement t w3 :: es4) m
        = Some ma ->
        step (Statement t w) ma = Some mb ->
        play (es5 ++ [Statement t w5]) mb = Some m' ->
        FreeConnection (shared m) connection = (Returned tt, shared m', nullptr)
        /\ connections_ (shared m') = connections_ (shared m) ++ [connection]
        /\ free_ (shared m') = to_size_t (free_ (shared m) + 1)
        /\ (free_ (shared m) < SIZE_MAX -> free_ (shared m') = free_ (shared m) + 1)
        /\ (free_ (shared m) = SIZE_MAX -> free_ (shared m') = 0)
        /\ connectionsAlive_ (shared m') = connectionsAlive_ (shared m)
        /\ poolSize_ (shared m') = poolSize_ (shared m)
        /\ objects m' = objects m
        /\ mt_ m' = None
        /\ threads m' !! t
           = Some (MkThread Idle (let_go connection (handles th)) (seen th) (caught th))
        /\ threads ma !! t
           = Some (MkThread FreeNotify (let_go connection (handles th)) (seen th) (caught th))
        /\ (existsb asleep (threads ma) = false ->
              threads mb
              = <[t := MkThread FreeUnlock (let_go connection (handles th))
                                (seen th) (caught th)]> (threads ma))
        /\ (existsb asleep (threads ma) = true ->
              exists thw, threads ma !! w = Some thw /\ asleep thw = true
                /\ threads mb
                   = <[w := wake thw]>
                       (<[t := MkThread FreeUnlock (let_go connection (handles th))
                                        (seen th) (caught th)]> (threads ma)))).
Proof.
  intros Hreach Hl Hat.
  pose proof (play_sane es0 _ m Hreach (start_sane poolSize n)) as (Hs & _ & _).
  split; [| split].
  - intros w Hmt. unfold step. simpl. rewrite Hl. unfold statement. rewrite Hat.
    destruct (mt_ m); [reflexivity | contradiction].
  - intros Hmt. destruct (notify_one_total (threads m)) as (w & ths' & Hn).
    exists w. eexists. apply (FreeConnection_run_locked m t w th connection ths'); assumption.
  - intros w1 w2 w3 w w5 es2 es3 es4 es5 ma mb m' Hall Hp1 Hn Hp2.
    apply Forall_app in Hall as [Hall2 Hall]. apply Forall_app in Hall as [Hall3 Hall].
    apply Forall_app in Hall as [Hall4 Hall5].
    change (play ((Statement t w1 :: es2) ++ (Statement t w2 :: es3) ++ Statement t w3 :: es4) m
            = Some ma) in Hp1.
    apply play_app_inv in Hp1 as (m1 & Hq1 & Hp1).
    apply play_app_inv in Hp1 as (m2 & Hq2 & Hq3).
    apply play_app_inv in Hp2 as (m4 & Hq4 & Hq5).
    assert (mt_ m = None) as Hmt.
    { destruct (mt_ m) eqn:Hmt; [| reflexivity]. exfalso.
      apply play_cons_inv in Hq1 as (m0 & Hstep & _).
      unfold step in Hstep. simpl in Hstep. rewrite Hl in Hstep. unfold statement in Hstep.
      rewrite Hat, Hmt in Hstep. discriminate. }
    (* l.98: the lock *)
    destruct (own_then_others m m1 t w1 es2 th (goto th (FreePush connection))
                (shared m) (objects m) Hs Hl) as (A1 & A2 & A3 & A4 & A5); try assumption.
    { unfold statement. rewrite Hat, Hmt. reflexivity. }
    (* l.99: push_back *)
    destruct (own_then_others m1 m2 t w2 es3 _
                (MkThread FreeInc (let_go connection (handles th)) (seen th) (caught th))
                (set_connections (shared m) (vec_push_back (connections_ (shared m)) connection))
                (objects m) A5 A4) as (B1 & B2 & B3 & B4 & B5); try assumption.
    { unfold statement. simpl. rewrite A1, A2, A3. reflexivity. }
    (* l.100: ++free_ *)
    destruct (own_then_others m2 ma t w3 es4 _
                (MkThread FreeNotify (let_go connection (handles th)) (seen th) (caught th))
                (FreeConnection (shared m) connection).1.2
                (objects m) B5 B4) as (C1 & C2 & C3 & C4 & C5); try assumption.
    { unfold statement. simpl. rewrite B1, B2, B3. reflexivity. }
    (* l.101: notify_one *)
    pose proof (step_sane _ _ _ Hn C5) as (D5 & _ & _).
    unfold step in Hn. simpl in Hn. rewrite C4 in Hn. unfold statement in Hn. simpl in Hn.
    set (tht := MkThread FreeUnlock (let_go connection (handles th)) (seen th) (caught th)) in *.
    change (goto _ FreeUnlock) with tht in Hn.
    destruct (notify_one w (<[t := tht]> (threads ma))) as [thsb|] eqn:Hnote; [| discriminate].
    simplify_eq.
    pose proof (notify_one_roused _ _ _ Hnote) as Hr.
    assert (<[t := tht]> (threads ma) !! t = Some tht) as Ht.
    { apply list_lookup_insert_eq. eapply lookup_lt_Some, C4. }
    assert (thsb !! t = Some tht) as D4.
    { destruct (roused_lookup_l _ _ _ _ Hr Ht) as (x & Hx & [-> | [Hbad _]]);
        [exact Hx | discriminate]. }
    simpl in D5.
    (* l.102: the unlock *)
    destruct (others_play_locked es5 _ m4 t tht D5 C3 D4 Hall5 Hq4) as (E1 & E2 & E3 & E4 & E5).
    apply play_cons_inv in Hq5 as (m5 & Hlast & Hq5). simpl in Hq5. simplify_eq.
    pose proof (own_statement m4 m' t w5 tht (goto tht Idle) (shared m4) (objects m4) None
                  E4 eq_refl Hlast) as ->.
    pose proof (numeric_free _ _ (sane_numeric _ Hs)) as Hsz.
    simpl. rewrite E1, E2, C1, C2.
    unfold FreeConnection, move_from, set_free, set_connections, vec_push_back. simpl.
    split; [reflexivity |]. split; [reflexivity |]. split; [reflexivity |].
    split; [intros Hlt; apply to_size_t_succ; assumption |].
    split; [intros ->; reflexivity |].
    split; [reflexivity |]. split; [reflexivity |]. split; [reflexivity |].
    split; [reflexivity |].
    split; [apply list_lookup_insert_eq; eapply lookup_lt_Some, E4 |].
    split; [exact C4 |].
    assert (existsb asleep (<[t := tht]> (threads ma)) = existsb asleep (threads ma)) as He.
    { eapply existsb_asleep_insert; [exact C4 | reflexivity | reflexivity]. }
    unfold notify_one in Hnote. rewrite He in Hnote.
    split; intros Hex; rewrite Hex in Hnote.
    + congruence.
    + destruct (<[t:=tht]> (threads ma) !! w) as [thw|] eqn:Hw; [| discriminate].
      destruct (asleep thw) eqn:Ha; [| discriminate]. simplify_eq.
      assert (t <> w) as Hne by (intros ->; rewrite Ht in Hw; simplify_eq; discriminate).
      rewrite list_lookup_insert_ne in Hw by exact Hne.
      exists thw. split; [exact Hw |]. split; [exact Ha | reflexivity].
Qed.

Lemma FreeConnection_every_call_witness :
  play to_releasing (start 1 3) = Some releasing
  /\ exists ma mb m',
       play (Statement 0 1 :: [Observe 2 ReadConnectionsInUse]
             ++ Statement 0 1 :: []
             ++ Statement 0 1 :: [BeginGet 2 "3"]) releasing = Some ma
       /\ step (Statement 0 1) ma = Some mb
       /\ play ([] ++ [Statement 0 1]) mb = Some m'
       /\ shared m' = one_idle
       /\ mt_ m' = None
       /\ threads m' !! 0%nat = Some {| at_ := Idle; handles := []; seen := []; caught := [] |}
       /\ threads mb
          = [ {| at_ := FreeUnlock; handles := []; seen := []; caught := [] |};
              {| at_ := GetWoken "2"; handles := []; seen := []; caught := [] |};
              onlooker ].
Proof.
  split; [reflexivity |].
  pose (ma := {| shared := one_idle; objects := [{| id := 1 |}]; mt_ := Some 0%nat;
                 threads := [ {| at_ := FreeNotify; handles := []; seen := []; caught := [] |};
                              {| at_ := GetAsleep "2"; handles := []; seen := [];
                                 caught := [] |};
                              onlooker ] |}).
  pose (mb := {| shared := one_idle; objects := [{| id := 1 |}]; mt_ := Some 0%nat;
                 threads := [ {| at_ := FreeUnlock; handles := []; seen := []; caught := [] |};
                              {| at_ := GetWoken "2"; handles := []; seen := [];
                                 caught := [] |};
                              onlooker ] |}).
  pose (m' := {| shared := one_idle; objects := [{| id := 1 |}]; mt_ := None;
                 threads := [ {| at_ := Idle; handles := []; seen := []; caught := [] |};
                              {| at_ := GetWoken "2"; handles := []; seen := [];
                                 caught := [] |};
                              onlooker ] |}).
  destruct (FreeConnection_every_call 1 3 to_releasing releasing 0
              {| at_ := FreeLock (Some 0%nat); handles := [Some 0%nat]; seen := [];
                 caught := [] |}
              (Some 0%nat) eq_refl eq_refl eq_refl) as (_ & _ & H).
  destruct (H 1%nat 1%nat 1%nat 1%nat 1%nat
              [Observe 2 ReadConnectionsInUse] [] [BeginGet 2 "3"] [] ma mb m')
    as (Hcall & Hcache & Hfree & _ & _ & _ & _ & _ & Hmt & Hdone & _ & _ & Hwake).
  - repeat constructor; simpl; lia.
  - reflexivity.
  - reflexivity.
  - reflexivity.
  - exists ma, mb, m'.
    split; [reflexivity |]. split; [reflexivity |]. split; [reflexivity |].
    split; [reflexivity |]. split; [exact Hmt |]. split; [exact Hdone |].
    destruct (Hwake eq_refl) as (thw & Hw & _ & Hths).
    simpl in Hw. simplify_eq. exact Hths.
Defined.

(** ** The mutex is given back *)

Lemma critical_remaining c : critical c = true -> (1 <= remaining c <= 6)%nat.
Proof. destruct c; simpl; intros H; try discriminate; lia. Qed.

(** A statement executed with [mt_] held ends the locked region or leaves
    fewer statements to execute in it. *)
Lemma action_remaining e th p h mt th' p' h' mt' nfy :
  action e th p h mt = Some (th', p', h', mt', nfy) ->
  critical (at_ th) = true ->
  critical (at_ th') = false \/ (remaining (at_ th') < remaining (at_ th))%nat.
Proof.
  intros H Hc. action_cases H; try discriminate;
    first [left; reflexivity | right; simpl; lia].
Qed.

Lemma focus_critical m t : exclusive m -> mt_ m = Some t -> critical (focus m) = true.
Proof.
  intros Hx Hm. destruct (exclusive_held m Hx t Hm) as (th & Hl & Hc).
  rewrite (focus_holder m t th Hx Hl Hc). exact Hc.
Qed.

Lemma holder_step e m m' t :
  sane m -> mt_ m = Some t -> step e m = Some m' -> actor e = t ->
  mt_ m' = None
  \/ (mt_ m' = Some t /\ (remaining (focus m') < remaining (focus m))%nat).
Proof.
  intros Hs Hm Hstep He.
  pose proof (step_sane e m m' Hstep Hs) as ([Hx' _] & _ & _).
  pose proof Hs as [Hx _]. pose proof Hx as [Hh Hheld].
  destruct (step_inversion e m m' Hstep) as (th & th' & nfy & Hl & Ha & Hr).
  rewrite He in Hl, Hr.
  destruct (Hheld t Hm) as (th0 & Hl0 & Hc). rewrite Hl in Hl0. simplify_eq.
  pose proof (action_lawful _ _ _ _ _ _ _ _ _ _ Ha) as Hlaw.
  unfold lawful in Hlaw. rewrite Hc in Hlaw.
  destruct (action_remaining _ _ _ _ _ _ _ _ _ _ Ha Hc) as [Ec' | Hlt].
  - left. rewrite Ec' in Hlaw. exact Hlaw.
  - destruct (critical (at_ th')) eqn:Ec'; [| left; exact Hlaw].
    right. split; [congruence |].
    assert (<[actor e := th']> (threads m) !! actor e = Some th') as Hl1.
    { apply list_lookup_insert_eq. eapply lookup_lt_Some, Hl. }
    destruct (roused_lookup_l _ _ _ _ Hr Hl1) as (x & Hx1 & [-> | [Hbad _]]).
    + rewrite (focus_holder m' (actor e) th' Hx' Hx1 Ec').
      rewrite (focus_holder m (actor e) th0 Hx Hl Hc). exact Hlt.
    + unfold asleep in Hbad. destruct (at_ th'); discriminate.
Qed.

(** The owner of [mt_] never waits: its next statement can be executed. *)
Lemma holder_enabled m t :
  exclusive m -> mt_ m = Some t -> exists w m', step (Statement t w) m = Some m'.
Proof.
  intros [Hh Hheld] Hm.
  destruct (Hheld t Hm) as (th & Hl & Hc).
  destruct (statement_critical t th (shared m) (objects m) (mt_ m) Hc)
    as ([[[[th' p'] h'] mt'] nfy] & Hs).
  unfold step. simpl. rewrite Hl, Hs.
  destruct nfy; [| eauto].
  destruct (notify_one_total (<[t:=th']> (threads m))) as (w & ths' & Hn).
  exists w. rewrite Hn. eauto.
Qed.

Lemma holder_release_run k : forall m t,
  sane m -> mt_ m = Some t -> (remaining (focus m) <= k)%nat ->
  exists ws m', (1 <= length ws <= k)%nat
    /\ play (Statement t <$> ws) m = Some m' /\ mt_ m' = None.
Proof.
  induction k as [|k IH]; intros m t Hs Hm Hk.
  - pose proof (critical_remaining _ (focus_critical m t (sane_exclusive _ Hs) Hm)). lia.
  - destruct (holder_enabled m t (sane_exclusive _ Hs) Hm) as (w & m1 & Hstep).
    pose proof (step_sane _ _ _ Hstep Hs) as (Hs1 & _ & _).
    destruct (holder_step _ m m1 t Hs Hm Hstep eq_refl) as [Hfree | [Hm1 Hlt]].
    + exists [w], m1. simpl. rewrite Hstep. split; [lia | split; [reflexivity | exact Hfree]].
    + destruct (IH m1 t Hs1 Hm1) as (ws & m' & Hlen & Hp & Hfree); [lia |].
      exists (w :: ws), m'. simpl. rewrite Hstep.
      split; [lia | split; [exact Hp | exact Hfree]].
Qed.

Lemma holder_released_in_time es : forall m m' t,
  sane m -> mt_ m = Some t -> play es m = Some m' ->
  (remaining (focus m) <= turns t es)%nat ->
  exists es1 es2 m1, es = es1 ++ es2 /\ play es1 m = Some m1 /\ mt_ m1 = None
    /\ (turns t es1 <= remaining (focus m))%nat.
Proof.
  induction es as [|e es IH]; intros m m' t Hs Hm Hp Hk.
  - pose proof (critical_remaining _ (focus_critical m t (sane_exclusive _ Hs) Hm)).
    simpl in Hk. lia.
  - apply play_cons_inv in Hp as (m1 & Hstep & Hp).
    pose proof (step_sane _ _ _ Hstep Hs) as (Hs1 & _ & _).
    pose proof (critical_remaining _ (focus_critical m t (sane_exclusive _ Hs) Hm)) as Hrem.
    simpl in Hk. destruct (Nat.eqb (actor e) t) eqn:Ee.
    + pose proof (proj1 (Nat.eqb_eq _ _) Ee) as Et.
      destruct (holder_step e m m1 t Hs Hm Hstep Et) as [Hfree | [Hm1 Hlt]].
      * exists [e], es, m1. simpl. rewrite Hstep, Ee.
        split; [reflexivity |]. split; [reflexivity |]. split; [exact Hfree | simpl; lia].
      * destruct (IH m1 m' t Hs1 Hm1 Hp) as (es1 & es2 & m2 & -> & Hp1 & Hfree & Hle); [lia |].
        exists (e :: es1), es2, m2. simpl. rewrite Hstep, Ee.
        split; [reflexivity |]. split; [exact Hp1 |]. split; [exact Hfree | lia].
    + pose proof (proj1 (Nat.eqb_neq _ _) Ee) as Et.
      destruct (exclusive_held m (sane_exclusive _ Hs) t Hm) as (th & Hl & Hc).
      destruct (others_step_locked e m m1 t th Hs Hm Hl Hstep Et) as (_ & _ & Hm1 & Hl1 & _).
      assert (focus m1 = focus m) as Hf.
      { rewrite (focus_holder m1 t th (sane_exclusive _ Hs1) Hl1 Hc).
        rewrite (focus_holder m t th (sane_exclusive _ Hs) Hl Hc). reflexivity. }
      destruct (IH m1 m' t Hs1 Hm1 Hp) as (es1 & es2 & m2 & -> & Hp1 & Hfree & Hle);
        [rewrite Hf; lia |].
      exists (e :: es1), es2, m2. simpl. rewrite Hstep, Ee. rewrite Hf in Hle.
      split; [reflexivity |]. split; [exact Hp1 |]. split; [exact Hfree | lia].
Qed.

(** X6: the thread that owns [mt_] gives it back after at most six of its
    own statements.  In any state the program can reach in which [t] owns
    the mutex, [t] has between one and six statements left in the locked
    region ([remaining], counted along the longest way out); it can
    execute its statements in a row, never waiting, and after at most that
    many [mt_] is free; and in every schedule, whatever the other threads
    do in between, [mt_] has been free by the time [t] has had that many
    turns. *)
Theorem mutex_released_within_six poolSize n es m t :
  play es (start poolSize n) = Some m -> mt_ m = Some t ->
  (1 <= remaining (focus m) <= 6)%nat
  /\ (exists ws m', (1 <= length ws <= remaining (focus m))%nat
        /\ play (Statement t <$> ws) m = Some m' /\ mt_ m' = None)
  /\ (forall es' m', play es' m = Some m' ->
        (remaining (focus m) <= turns t es')%nat ->
        exists es1 es2 m1, es' = es1 ++ es2 /\ play es1 m = Some m1 /\ mt_ m1 = None
          /\ (turns t es1 <= remaining (focus m))%nat).
Proof.
  intros Hp Hm.
  pose proof (play_sane es _ m Hp (start_sane poolSize n)) as (Hs & _ & _).
  split; [apply critical_remaining, (focus_critical m t (sane_exclusive _ Hs) Hm) |].
  split.
  - apply holder_release_run; [exact Hs | exact Hm | lia].
  - intros es' m' Hp' Hk. eapply holder_released_in_time; eassumption.
Qed.

Lemma mutex_released_within_six_witness :
  play [BeginGet 0 "1"; Statement 0 0] (start 5 2) = Some just_locked
  /\ (exists ws m', (1 <= length ws <= 6)%nat
        /\ play (Statement 0 <$> ws) just_locked = Some m' /\ mt_ m' = None)
  /\ (exists es1 es2 m1,
        [Statement 0 0; Observe 1 ReadConnectionsInUse; Statement 0 0; BeginGet 1 "2";
         Statement 0 0; Statement 0 0; Statement 0 0; Statement 0 0; Statement 1 0]
        = es1 ++ es2
        /\ play es1 just_locked = Some m1 /\ mt_ m1 = None /\ (turns 0 es1 <= 6)%nat).
Proof.
  split; [reflexivity |].
  destruct (mutex_released_within_six 5 2 [BeginGet 0 "1"; Statement 0 0] just_locked 0
              eq_refl eq_refl) as (_ & Hrun & Hany).
  split; [exact Hrun |].
  eapply Hany; [reflexivity | simpl; lia].
Defined.

(** * main.cpp: the command line of the Shell *)

Lemma append_empty_r s : String.append s EmptyString = s.
Proof. induction s as [|c s IH]; simpl; [reflexivity | rewrite IH; reflexivity]. Qed.

Lemma append_snoc_assoc w c s :
  String.append (String.append w (String c EmptyString)) s = String.append w (String c s).
Proof. induction w as [|d w IH]; simpl; [reflexivity | rewrite IH; reflexivity]. Qed.

Lemma append_snoc_not_empty w c : String.append w (String c EmptyString) <> EmptyString.
Proof. destruct w; discriminate. Qed.

Lemma no_space_snoc w c :
  no_space w = true -> isspace c = false ->
  no_space (String.append w (String c EmptyString)) = true.
Proof.
  intros Hw Hc. induction w as [|d w IH]; simpl in *.
  - rewrite Hc. reflexivity.
  - apply andb_true_iff in Hw as [Hd Hw]. rewrite Hd, (IH Hw). reflexivity.
Qed.

(** The arguments read are words, whatever the word being read is. *)
Lemma split_args_words s word :
  no_space word = true -> Forall is_word (split_args s word).
Proof.
  revert word. induction s as [|c s IH]; intros word Hw; simpl.
  - destruct word; [constructor |]. constructor; [| constructor]. split; [discriminate | exact Hw].
  - destruct (isspace c) eqn:Hc.
    + destruct word.
      * apply IH. reflexivity.
      * constructor; [split; [discriminate | exact Hw] | apply IH; reflexivity].
    + apply IH, no_space_snoc; assumption.
Qed.

Lemma split_args_blank s : split_args s EmptyString = [] <-> blank s = true.
Proof.
  split.
  - induction s as [|c s IH]; simpl; [reflexivity |].
    destruct (isspace c) eqn:Hc; simpl; [exact IH |].
    intros H. exfalso.
    assert (forall s' w, w <> EmptyString -> split_args s' w <> []) as Hne.
    { clear. induction s' as [|d s' IH']; intros w Hw; simpl.
      - destruct w; [contradiction | discriminate].
      - destruct (isspace d).
        + destruct w; [contradiction | discriminate].
        + apply IH', append_snoc_not_empty. }
    apply (Hne s (String c EmptyString)); [discriminate | exact H].
  - induction s as [|c s IH]; simpl; [reflexivity |].
    intros H. apply andb_true_iff in H as [Hc Hs]. rewrite Hc. apply IH, Hs.
Qed.

(** Reading a word in front of the rest of the line. *)
Lemma split_args_word w s acc :
  no_space w = true ->
  split_args (String.append w s) acc = split_args s (String.append acc w).
Proof.
  revert acc. induction w as [|c w IH]; intros acc Hw; simpl.
  - rewrite append_empty_r. reflexivity.
  - simpl in Hw. apply andb_true_iff in Hw as [Hc Hw].
    apply negb_true_iff in Hc. rewrite Hc, (IH _ Hw), append_snoc_assoc. reflexivity.
Qed.

Lemma find_redirection_spec rest i :
  match find_redirection rest i with
  | NoRedirection => Forall (fun a => is_redirect a = false) rest
  | RedirectTo j file appending =>
      exists pre op later,
        rest = pre ++ op :: file :: later
        /\ Forall (fun a => is_redirect a = false) pre
        /\ is_redirect op = true /\ appending = String.eqb op ">>"
        /\ j = (i + length pre)%nat
  | NoTarget =>
      exists pre op,
        rest = pre ++ [op] /\ Forall (fun a => is_redirect a = false) pre
        /\ is_redirect op = true
  end.
Proof.
  revert i. induction rest as [|a later IH]; intros i; simpl; [constructor |].
  destruct (is_redirect a) eqn:Ha.
  - destruct later as [|file later'].
    + exists [], a. split; [reflexivity |]. split; [constructor | exact Ha].
    + exists [], a, later'. split; [reflexivity |]. split; [constructor |].
      split; [exact Ha |]. split; [reflexivity | simpl; lia].
  - specialize (IH (S i)). destruct (find_redirection later (S i)) as [| j file app |].
    + constructor; assumption.
    + destruct IH as (pre & op & later' & -> & Hpre & Hop & Happ & Hj).
      exists (a :: pre), op, later'. split; [reflexivity |].
      split; [constructor; assumption |]. split; [exact Hop |].
      split; [exact Happ | simpl; lia].
    + destruct IH as (pre & op & -> & Hpre & Hop).
      exists (a :: pre), op. split; [reflexivity |]. split; [constructor; assumption | exact Hop].
Qed.

(** X10: [ExecuteCommand] returns before running any command, with code
    1, exactly for a line with nothing but white space and for a line
    whose first [>] or [>>] is its last argument; it never returns early
    with another code. *)
Theorem ExecuteCommand_head_rejects command :
  (forall code, ExecuteCommand_head command = inl code -> code = 1)
  /\ (ExecuteCommand_head command = inl 1
      <-> blank command = true
          \/ exists pre op,
               split_args command EmptyString = pre ++ [op]
               /\ Forall (fun a => is_redirect a = false) pre
               /\ is_redirect op = true).
Proof.
  unfold ExecuteCommand_head.
  destruct (split_args command EmptyString) as [|first others] eqn:Hs.
  - split; [intros code H; congruence |]. split; [| reflexivity].
    intros _. left. apply split_args_blank, Hs.
  - pose proof (find_redirection_spec (first :: others) 0) as Hspec.
    destruct (find_redirection (first :: others) 0) as [| j file app |].
    + split; [intros code H; discriminate |]. split; [discriminate |].
      intros [Hb | (pre & op & Heq & Hpre & Hop)].
      * apply split_args_blank in Hb. congruence.
      * rewrite Heq in Hspec. apply Forall_app in Hspec as [_ Hlast].
        apply Forall_cons in Hlast as [Hlast _]. congruence.
    + split; [intros code H; discriminate |]. split; [discriminate |].
      intros [Hb | (pre & op & Heq & Hpre & Hop)].
      * apply split_args_blank in Hb. congruence.
      * exfalso. destruct Hspec as (pre' & op' & later & Heq' & Hpre' & Hop' & _).
        rewrite Heq in Heq'. clear - Heq' Hpre Hop Hpre' Hop'.
        revert pre' Heq' Hpre'. induction pre as [|a pre IH]; intros pre' Heq' Hpre'.
        -- destruct pre' as [|b pre']; simpl in Heq'; [discriminate |].
           injection Heq' as -> Hrest. apply Forall_cons in Hpre' as [Hb _].
           congruence.
        -- apply Forall_cons in Hpre as [Ha Hpre].
           destruct pre' as [|b pre']; simpl in Heq'.
           ++ injection Heq' as -> _. congruence.
           ++ injection Heq' as -> Hrest. apply Forall_cons in Hpre' as [_ Hpre'].
              apply (IH Hpre pre' Hrest Hpre').
    + split; [intros code H; congruence |]. split; [| reflexivity].
      intros _. right. exact Hspec.
Qed.

(** X11: when [ExecuteCommand] goes on to run a command, [cmd] is the
    first argument of the line (even when that is [>] or [>>]) and the
    command is given the arguments in front of the first [>] or [>>],
    none of which is a redirection.  With no redirection it is given them
    all and [output_file] is empty.  Otherwise [output_file] is the
    argument that follows the operator, not empty, [append] tells [>>]
    from [>], and the arguments after the file name are ignored. *)
Theorem ExecuteCommand_head_accepts command cl :
  ExecuteCommand_head command = inr cl ->
  head (split_args command EmptyString) = Some (cmd cl)
  /\ Forall (fun a => is_redirect a = false) (args cl)
  /\ Forall is_word (args cl)
  /\ ((output_file cl = EmptyString /\ append cl = false
       /\ args cl = split_args command EmptyString)
      \/ (exists op ignored,
            split_args command EmptyString = args cl ++ op :: output_file cl :: ignored
            /\ is_redirect op = true /\ append cl = String.eqb op ">>"
            /\ is_word (output_file cl))).
Proof.
  unfold ExecuteCommand_head. intros H.
  pose proof (split_args_words command EmptyString eq_refl) as Hwords.
  destruct (split_args command EmptyString) as [|first others] eqn:Hs; [discriminate |].
  pose proof (find_redirection_spec (first :: others) 0) as Hspec.
  destruct (find_redirection (first :: others) 0) as [| j file app |]; [| | discriminate].
  - injection H as <-. simpl. split; [reflexivity |]. split; [exact Hspec |].
    split; [exact Hwords |]. left. auto.
  - injection H as <-. simpl.
    destruct Hspec as (pre & op & later & Heq & Hpre & Hop & Happ & ->).
    rewrite Heq in *. simpl. rewrite take_app_length.
    apply Forall_app in Hwords as [Hw1 Hw2].
    apply Forall_cons in Hw2 as [_ Hw2]. apply Forall_cons in Hw2 as [Hfile _].
    split; [reflexivity |]. split; [exact Hpre |]. split; [exact Hw1 |].
    right. exists op, later. auto.
Qed.

Lemma ExecuteCommand_head_accepts_witness :
  ExecuteCommand_head "echo Goodbye >> test2.txt"
  = inr {| cmd := "echo"; args := ["echo"%string; "Goodbye"%string];
           output_file := "test2.txt"; append := true |}
  /\ head (split_args "echo Goodbye >> test2.txt" EmptyString) = Some "echo"%string.
Proof.
  split; [reflexivity |].
  apply (ExecuteCommand_head_accepts "echo Goodbye >> test2.txt"
           {| cmd := "echo"; args := ["echo"%string; "Goodbye"%string];
              output_file := "test2.txt"; append := true |}).
  reflexivity.
Defined.

Lemma echo_text_reads_back rest :
  Forall is_word rest ->
  split_args (fold_right (fun a text => String.append a (String " " text))
                (String "010" EmptyString) rest) EmptyString
  = rest.
Proof.
  induction 1 as [|w rest [Hne Hw] _ IH]; simpl; [reflexivity |].
  rewrite (split_args_word w _ EmptyString Hw). simpl.
  destruct w; [contradiction |]. rewrite IH. reflexivity.
Qed.

(** X12: [echo] sends each argument after the command name followed by
    one space, then a newline, and returns 0: with no argument it sends a
    mere newline, and otherwise the text ends in a space and a newline.
    Split as a command line, the text gives back the arguments echoed. *)
Theorem echo_reads_back name rest :
  Forall is_word rest ->
  (echo (name :: rest)).2 = 0
  /\ split_args (echo (name :: rest)).1 EmptyString = rest
  /\ (echo [name]).1 = String "010" EmptyString
  /\ (forall a, (echo [name; a]).1 = String.append a (String " " (String "010" EmptyString))).
Proof.
  intros Hw. split; [reflexivity |]. split; [| split; [reflexivity | intros a; reflexivity]].
  unfold echo. simpl. rewrite drop_0. apply (echo_text_reads_back rest Hw).
Qed.

Lemma echo_reads_back_witness :
  split_args (echo ["echo"; "Hello,"; "World!"]%string).1 EmptyString
  = ["Hello,"; "World!"]%string.
Proof.
  apply (echo_reads_back "echo" ["Hello,"; "World!"]%string).
  repeat constructor; discriminate.
Defined.
